(** * demo_restaurant_rag.py: the scripted Restaurant RAG demo

    A shallow embedding of [src/demo_restaurant_rag.py].  Python strings are
    sequences of Unicode code points; console effects (print, input), the
    process environment and the list object of the sample data are threaded
    through an explicit world.  [simulate_typing], which the script never
    calls, is modelled on its own in [Typing]. *)

From Stdlib Require Import List NArith Bool Arith Lia QArith.
From Stdlib Require Import Strings.String Strings.Ascii Strings.Byte.
From Stdlib Require Import Numbers.DecimalString.
Import ListNotations.

Local Open Scope N_scope.
Local Open Scope list_scope.

(** ** Python [str] values *)

(** A Python [str] is a sequence of code points. *)
Definition codepoint := N.
Definition str := list codepoint.

(** The source file is UTF-8; a literal of the source is read by decoding
    the bytes of the Rocq literal of the same text. *)
Fixpoint utf8_decode (bs : list N) : str :=
  match bs with
  | [] => []
  | b :: r =>
      if b <? 0x80 then b :: utf8_decode r
      else if b <? 0xE0 then
        match r with
        | b1 :: r1 =>
            N.lor (N.shiftl (N.land b 0x1F) 6) (N.land b1 0x3F) :: utf8_decode r1
        | _ => []
        end
      else if b <? 0xF0 then
        match r with
        | b1 :: b2 :: r2 =>
            N.lor (N.shiftl (N.land b 0x0F) 12)
              (N.lor (N.shiftl (N.land b1 0x3F) 6) (N.land b2 0x3F))
            :: utf8_decode r2
        | _ => []
        end
      else
        match r with
        | b1 :: b2 :: b3 :: r3 =>
            N.lor (N.shiftl (N.land b 0x07) 18)
              (N.lor (N.shiftl (N.land b1 0x3F) 12)
                 (N.lor (N.shiftl (N.land b2 0x3F) 6) (N.land b3 0x3F)))
            :: utf8_decode r3
        | _ => []
        end
  end.

Definition u (s : string) : str :=
  utf8_decode (map Byte.to_N (list_byte_of_string s)).

(** The double quote character, spliced into literals that contain it. *)
Definition dq : str := [34].

(** [w in s] on strings: [w] occurs in [s] as a contiguous run. *)
Fixpoint startswith (w s : str) : bool :=
  match w, s with
  | [], _ => true
  | _ :: _, [] => false
  | x :: w', c :: s' => (x =? c) && startswith w' s'
  end.

Fixpoint contains (w s : str) : bool :=
  startswith w s ||
  match s with
  | [] => false
  | _ :: s' => contains w s'
  end.

(** [str(n)] for a non-negative integer. *)
Definition str_of_nat (n : nat) : str :=
  u (NilEmpty.string_of_uint (Nat.to_uint n)).

Definition is_ascii (c : codepoint) : bool := c <? 128.
Definition is_ascii_upper (c : codepoint) : bool := (65 <=? c) && (c <=? 90).

(** Lower-casing of an ASCII code point: [A-Z] move to [a-z]. *)
Definition ascii_lower (c : codepoint) : codepoint :=
  if is_ascii_upper c then c + 32 else c.

(** A full lower-casing table for the code points outside ASCII.  The table
    is the interpreter's Unicode database and is not part of the repository;
    the string and the position are arguments because the lower case of a
    capital sigma depends on its neighbours. *)
Definition lower_table := str -> nat -> codepoint -> list codepoint.

(** What the development relies on about the table: a non-ASCII code point
    lower-cases to [i] followed by a combining dot (U+0130), to [k] (the
    Kelvin sign U+212A), or to a non-empty run of non-ASCII code points. *)
Definition unicode_table (lower_full : lower_table) : Prop :=
  forall s i c, 128 <= c ->
    lower_full s i c = [0x69; 0x307] \/
    lower_full s i c = [0x6B] \/
    (lower_full s i c <> [] /\
     forallb (fun d => negb (is_ascii d)) (lower_full s i c) = true).

(** A table that knows the two special code points and leaves every other
    code point unchanged. *)
Definition lower_full_min : lower_table :=
  fun _ _ c =>
    if c =? 0x130 then [0x69; 0x307]
    else if c =? 0x212A then [0x6B] else [c].

(** ** Console, environment and object store *)

(** One dictionary of the sample data; all of them have the same six keys. *)
Record RestaurantRecord := mkRestaurant {
  name : str;
  cuisine : str;
  location : str;
  rating : Q;
  price : str;
  description : str
}.

(** The world a run of the script acts on: the lines still to be read from
    standard input, the characters written to standard output so far, the
    process environment, and the list objects allocated so far. *)
Record World := mkWorld {
  stdin : list str;
  stdout : str;
  environ : list (str * str);
  heap : list (list RestaurantRecord)
}.

Inductive exn := EOFError.

Inductive outcome (A : Type) :=
| Returned (a : A)
| Raised (e : exn).
Arguments Returned {A} a.
Arguments Raised {A} e.

Definition IO (A : Type) := World -> outcome A * World.

Definition ret {A} (a : A) : IO A := fun w => (Returned a, w).

Definition bind {A B} (m : IO A) (k : A -> IO B) : IO B :=
  fun w =>
    match m w with
    | (Returned a, w') => k a w'
    | (Raised e, w') => (Raised e, w')
    end.

Declare Scope io_scope.
Delimit Scope io_scope with io.
Bind Scope io_scope with IO.
Notation "x <- m1 ;; m2" := (bind m1 (fun x => m2))
  (at level 61, m1 at next level, right associativity) : io_scope.
Notation "m1 ;; m2" := (bind m1 (fun _ => m2))
  (at level 61, right associativity) : io_scope.
Local Open Scope io_scope.

Definition nl : str := [10].

(** [sys.stdout.write(s)] on a console that accepts every text written to
    it.  The console whose encoding can refuse a text is in [Real] below;
    where the console has the code points of the script's text the two
    agree ([real_main_agrees]). *)
Definition write (s : str) : IO unit :=
  fun w => (Returned tt, mkWorld (stdin w) (stdout w ++ s) (environ w) (heap w)).

(** [print(s)] and [print()] *)
Definition print (s : str) : IO unit := write (s ++ nl).
Definition print_ : IO unit := print [].

(** [input(prompt)]: the prompt is written without a newline, then one line
    is read; at end of input [EOFError] is raised. *)
Definition input (prompt : str) : IO str :=
  fun w =>
    let w' := mkWorld (stdin w) (stdout w ++ prompt) (environ w) (heap w) in
    match stdin w with
    | [] => (Raised EOFError, w')
    | line :: rest =>
        (Returned line, mkWorld rest (stdout w') (environ w') (heap w'))
    end.

(** [a == b] on strings *)
Fixpoint str_eqb (a b : str) : bool :=
  match a, b with
  | [], [] => true
  | x :: a', y :: b' => (x =? y) && str_eqb a' b'
  | _, _ => false
  end.

(** [os.environ.get(key)] *)
Fixpoint assoc (key : str) (kvs : list (str * str)) : option str :=
  match kvs with
  | [] => None
  | (k, v) :: r => if str_eqb k key then Some v else assoc key r
  end.

Definition os_environ_get (key : str) : IO (option str) :=
  fun w => (Returned (assoc key (environ w)), w).

(** A list display [[...]] allocates a fresh list object; the variable
    bound to it holds its address. *)
Definition new_list (v : list RestaurantRecord) : IO nat :=
  fun w =>
    (Returned (List.length (heap w)),
     mkWorld (stdin w) (stdout w) (environ w) (heap w ++ [v])).

Definition read_list (a : nat) : IO (list RestaurantRecord) :=
  fun w => (Returned (nth a (heap w) []), w).

(** [xs[:] = v]: the list object at an address is overwritten.  The script
    has no such statement; the operation is what a mutation would be. *)
Fixpoint set_nth {A} (n : nat) (v : A) (l : list A) : list A :=
  match n, l with
  | _, [] => []
  | O, _ :: r => v :: r
  | S n', x :: r => x :: set_nth n' v r
  end.

Definition assign_list (a : nat) (v : list RestaurantRecord) : IO unit :=
  fun w =>
    (Returned tt,
     mkWorld (stdin w) (stdout w) (environ w) (set_nth a v (heap w))).

(** [for x in xs: body(x)] *)
Fixpoint for_each {A} (xs : list A) (body : A -> IO unit) : IO unit :=
  match xs with
  | [] => ret tt
  | x :: r => body x ;; for_each r body
  end.

(** [enumerate(xs, start)] *)
Fixpoint enumerate {A} (xs : list A) (start : nat) : list (nat * A) :=
  match xs with
  | [] => []
  | x :: r => (start, x) :: enumerate r (S start)
  end.

(** ** Formatting helpers *)

(** Color codes for pretty output *)
Definition esc : str := [27].
Definition GREEN : str := esc ++ u "[92m".
Definition BLUE : str := esc ++ u "[94m".
Definition YELLOW : str := esc ++ u "[93m".
Definition CYAN : str := esc ++ u "[96m".
Definition RESET : str := esc ++ u "[0m".
Definition BOLD : str := esc ++ u "[1m".

(** ['=' * 60] *)
Definition rule60 : str := repeat 61 60.

(** [f"{text:^60}"]: centred in a field of 60 code points, the odd space
    going to the right. *)
Definition center60 (text : str) : str :=
  let pad := (60 - List.length text)%nat in
  let left := Nat.div pad 2 in
  repeat 32 left ++ text ++ repeat 32 (pad - left)%nat.

Definition print_header (text : str) : IO unit :=
  print (nl ++ BOLD ++ BLUE ++ rule60 ++ RESET) ;;
  print (BOLD ++ BLUE ++ center60 text ++ RESET) ;;
  print (BOLD ++ BLUE ++ rule60 ++ RESET ++ nl).

Definition print_step (step_num : nat) (text : str) : IO unit :=
  print (YELLOW ++ u "[Step " ++ str_of_nat step_num ++ u "]" ++ RESET
         ++ u " " ++ text).

Definition print_code (code : str) : IO unit :=
  print (CYAN ++ u ">>> " ++ code ++ RESET).

Definition print_result (text : str) : IO unit :=
  print (GREEN ++ text ++ RESET).

(** [f"{x}"] for a float with one decimal digit, such as the ratings of the
    sample data: integer part, a dot, the tenths digit. *)
Definition repr_float (q : Q) : str :=
  let tenths := Z.to_nat (Z.div (10 * Qnum q) (Z.pos (Qden q))) in
  str_of_nat (Nat.div tenths 10) ++ u "." ++ str_of_nat (Nat.modulo tenths 10).

(** ** The sample data and the queries *)

Definition joes_pizza : RestaurantRecord :=
  {| name := u "Joe's Pizza";
     cuisine := u "Italian, Pizza";
     location := u "New York, NY";
     rating := 4.5;
     price := u "$$";
     description :=
       u "Classic NYC slice joint since 1975. Famous for thin crust pizza." |}.

Definition sushi_nakazawa : RestaurantRecord :=
  {| name := u "Sushi Nakazawa";
     cuisine := u "Japanese, Sushi";
     location := u "New York, NY";
     rating := 4.8;
     price := u "$$$$";
     description :=
       u "Omakase experience from Jiro Dreams of Sushi apprentice." |}.

Definition shake_shack : RestaurantRecord :=
  {| name := u "Shake Shack";
     cuisine := u "American, Burgers";
     location := u "New York, NY";
     rating := 4.3;
     price := u "$$";
     description :=
       u "Modern roadside burger stand with quality ingredients." |}.

(** The list display bound to [sample_restaurants]. *)
Definition sample_restaurants_literal : list RestaurantRecord :=
  [ joes_pizza; sushi_nakazawa; shake_shack ].

Definition queries : list str :=
  [ u "Where can I find good pizza in New York?";
    u "I want fancy Japanese food for a special occasion";
    u "Quick casual lunch under $20?" ].

(** ** The three canned responses (the bodies of the [if], the [elif] and
    the [else] of the query loop) *)

Definition pizza_response : IO unit :=
  print_result (u "🍕 Based on your query, I recommend:") ;;
  print_result (u "") ;;
  print_result (u "   Joe's Pizza ⭐ 4.5") ;;
  print_result (u "   📍 New York, NY | 💰 $$") ;;
  print_result (u "   Classic NYC slice joint since 1975.") ;;
  print_result (u "   Famous for thin crust pizza.").

Definition japanese_response : IO unit :=
  print_result (u "🍣 For a special Japanese dining experience:") ;;
  print_result (u "") ;;
  print_result (u "   Sushi Nakazawa ⭐ 4.8") ;;
  print_result (u "   📍 New York, NY | 💰 $$$$") ;;
  print_result (u "   Omakase experience from Jiro Dreams") ;;
  print_result (u "   of Sushi apprentice.").

Definition fallback_response : IO unit :=
  print_result (u "🍔 For a quick casual lunch:") ;;
  print_result (u "") ;;
  print_result (u "   Shake Shack ⭐ 4.3") ;;
  print_result (u "   📍 New York, NY | 💰 $$") ;;
  print_result (u "   Modern roadside burger stand with") ;;
  print_result (u "   quality ingredients.").

(** ** The data model and the rendering of a record, as the specification
    words them *)

Definition price_tiers : list str := [u "$"; u "$$"; u "$$$"; u "$$$$"].

(** A record is well formed: non-empty name, rating in [0.0, 5.0], price one
    of the tier tokens. *)
Definition well_formed (r : RestaurantRecord) : bool :=
  negb (str_eqb (name r) []) &&
  Qle_bool 0 (rating r) && Qle_bool (rating r) 5 &&
  existsb (str_eqb (price r)) price_tiers.

Fixpoint distinct (l : list str) : bool :=
  match l with
  | [] => true
  | x :: r => negb (existsb (str_eqb x) r) && distinct r
  end.

(** A rating to one decimal place (nearest tenth). *)
Definition spec_one_decimal (q : Q) : str :=
  let tenths :=
    Z.to_nat (Z.div (20 * Qnum q + Z.pos (Qden q)) (2 * Z.pos (Qden q))) in
  str_of_nat (Nat.div tenths 10) ++ u "." ++ str_of_nat (Nat.modulo tenths 10).

(** The card of a record: the name with the starred rating, the location
    and the price tier, then the description on the given display lines. *)
Definition spec_render (r : RestaurantRecord) (wrapped : list str) : list str :=
  (name r ++ u " ⭐ " ++ spec_one_decimal (rating r))
  :: (u "📍 " ++ location r ++ u " | 💰 " ++ price r)
  :: wrapped.

(** Undoing the wrapping: the display lines joined by single spaces. *)
Fixpoint unwrap (ls : list str) : str :=
  match ls with
  | [] => []
  | [l] => l
  | l :: r => l ++ [32] ++ unwrap r
  end.

Definition indent (l : str) : str := u "   " ++ l.

(** Two consoles: one at end of input, one with seven lines typed. *)
Definition eof_world : World := mkWorld [] [] [] [].

Definition seven_lines : World :=
  mkWorld [u ""; u "y"; u "go on"; u ""; u "next"; [0x130]; u "q"] [] [] [].


(** ** Properties of computations *)

(** [m] only writes the text [t]: it returns, and nothing else changes. *)
Definition writes (m : IO unit) (t : str) : Prop :=
  forall w,
    m w = (Returned tt,
           mkWorld (stdin w) (stdout w ++ t) (environ w) (heap w)).

Definition writes_only (m : IO unit) : Prop := exists t, writes m t.


(** [m] leaves the list objects as they are. *)
Definition heap_preserving {A} (m : IO A) : Prop :=
  forall w, heap (snd (m w)) = heap w.

(** [m] allocates at most one list object, holding [v]. *)
Definition allocates_at_most {A} (m : IO A) (v : list RestaurantRecord) : Prop :=
  forall w,
    heap (snd (m w)) = heap w \/ heap (snd (m w)) = heap w ++ [v].

(** [m] behaves the same whatever the process environment is. *)
Definition env_blind {A} (m : IO A) : Prop :=
  forall w e,
    m (mkWorld (stdin w) (stdout w) e (heap w)) =
    (fst (m w),
     mkWorld (stdin (snd (m w))) (stdout (snd (m w))) e (heap (snd (m w)))).

(** ** The typing effect *)

(** [simulate_typing] acts on the console and on the clock.  A run of it is
    observed as the sequence of its writes, flushes and sleeps, in order.
    The console has an encoding, as above, and the clock a range: a delay
    that does not convert to its nanoseconds is refused before its sign is
    looked at. *)
Module Typing.

Inductive event :=
| Write (s : str)
| Flush
| Sleep (delay : Q).

Inductive exn := UnicodeEncodeError | OverflowError | ValueError.

Inductive outcome :=
| Returned
| Raised (e : exn).

Definition T := list event -> outcome * list event.

Definition seq (m1 m2 : T) : T :=
  fun tr =>
    match m1 tr with
    | (Returned, tr') => m2 tr'
    | (Raised e, tr') => (Raised e, tr')
    end.

Definition skip : T := fun tr => (Returned, tr).

Fixpoint for_each (xs : str) (body : codepoint -> T) : T :=
  match xs with
  | [] => skip
  | x :: r => seq (body x) (for_each r body)
  end.

Section Runtime.

(** The code points the encoding of standard output has, and the delays
    that fit the clock; both belong to the interpreter. *)
Variable encodes : codepoint -> bool.
Variable fits : Q -> bool.

(** [sys.stdout.write(s)] and [sys.stdout.flush()] *)
Definition stdout_write (s : str) : T :=
  fun tr =>
    if forallb encodes s then (Returned, tr ++ [Write s])
    else (Raised UnicodeEncodeError, tr).

Definition stdout_flush : T := fun tr => (Returned, tr ++ [Flush]).

(** [time.sleep(delay)]: a delay out of the clock's range raises
    [OverflowError], a negative one in range [ValueError]. *)
Definition sleep (delay : Q) : T :=
  fun tr =>
    if fits delay then
      if Qle_bool 0 delay then (Returned, tr ++ [Sleep delay])
      else (Raised ValueError, tr)
    else (Raised OverflowError, tr).

(** [print()] *)
Definition print_ : T := stdout_write nl.

Definition simulate_typing (text : str) (delay : Q) : T :=
  seq (for_each text (fun char =>
         seq (stdout_write [char]) (seq stdout_flush (sleep delay))))
      print_.

End Runtime.

Definition default_delay : Q := 0.02.

(** The characters a trace puts on standard output, and its sleeps. *)
Fixpoint written (tr : list event) : str :=
  match tr with
  | [] => []
  | Write s :: r => s ++ written r
  | _ :: r => written r
  end.

Fixpoint sleeps (tr : list event) : list Q :=
  match tr with
  | [] => []
  | Sleep d :: r => d :: sleeps r
  | _ :: r => sleeps r
  end.

End Typing.

(** Two consoles and a clock for concrete runs: a console that has every
    code point but the surrogates, as UTF-8, one that has ASCII only, and a
    clock that takes delays up to nine thousand million seconds either
    way. *)
Definition utf8_console (c : codepoint) : bool :=
  (c <? 0xD800) || ((0xE000 <=? c) && (c <? 0x110000)).


Definition clock_fits (d : Q) : bool :=
  Qle_bool (-9000000000) d && Qle_bool d 9000000000.

(** ** Scripts: what a run prints, pause by pause *)

(** A script is the text written up to and including each prompt, one
    segment per pause, and the text written after the last pause.  With [n]
    lines on standard input it is played up to the first pause that finds
    no line. *)
Definition played (segs : list str) (tail : str) (n : nat) : str :=
  if (List.length segs <=? n)%nat then List.concat segs ++ tail
  else List.concat (firstn (S n) segs).

Definition script_outcome (segs : list str) (n : nat) : outcome unit :=
  if (List.length segs <=? n)%nat then Returned tt else Raised EOFError.

(** [m] follows the script whenever the list objects satisfy [P], and
    leaves them and the environment alone. *)
Definition runs_script (P : list (list RestaurantRecord) -> Prop)
    (m : IO unit) (segs : list str) (tail : str) : Prop :=
  forall w, P (heap w) ->
    m w = (script_outcome segs (List.length (stdin w)),
           mkWorld (skipn (List.length segs) (stdin w))
                   (stdout w ++ played segs tail (List.length (stdin w)))
                   (environ w) (heap w)).

(** Two scripts one after the other: the tail of the first runs into the
    first segment of the second. *)
Definition glue_segs (s1 : list str) (t1 : str) (s2 : list str) : list str :=
  match s2 with
  | [] => s1
  | x :: r => s1 ++ (t1 ++ x) :: r
  end.

Definition glue_tail (t1 : str) (s2 : list str) (t2 : str) : str :=
  match s2 with
  | [] => t1 ++ t2
  | _ :: _ => t2
  end.

(** ** The script on a console that can refuse a text *)

(** The console of [write] accepts every text written to it.  Here
    standard output has an encoding, fixed when the interpreter starts: a
    write whose text holds a code point the encoding does not have raises
    [UnicodeEncodeError] and writes nothing.  Standard input still delivers
    decoded lines, and standard output stays open.  The script is the same,
    statement by statement. *)
Module Real.

Inductive exn := EOFError | UnicodeEncodeError.

Inductive outcome (A : Type) :=
| Returned (a : A)
| Raised (e : exn).
Arguments Returned {A} a.
Arguments Raised {A} e.

Definition IO (A : Type) := World -> outcome A * World.

Definition ret {A} (a : A) : IO A := fun w => (Returned a, w).

Definition bind {A B} (m : IO A) (k : A -> IO B) : IO B :=
  fun w =>
    match m w with
    | (Returned a, w') => k a w'
    | (Raised e, w') => (Raised e, w')
    end.

Declare Scope real_scope.
Delimit Scope real_scope with real.
Bind Scope real_scope with IO.
Notation "x <- m1 ;; m2" := (bind m1 (fun x => m2))
  (at level 61, m1 at next level, right associativity) : real_scope.
Notation "m1 ;; m2" := (bind m1 (fun _ => m2))
  (at level 61, right associativity) : real_scope.
Local Open Scope real_scope.

Definition new_list (v : list RestaurantRecord) : IO nat :=
  fun w =>
    (Returned (List.length (heap w)),
     mkWorld (stdin w) (stdout w) (environ w) (heap w ++ [v])).

Definition read_list (a : nat) : IO (list RestaurantRecord) :=
  fun w => (Returned (nth a (heap w) []), w).

Fixpoint for_each {A} (xs : list A) (body : A -> IO unit) : IO unit :=
  match xs with
  | [] => ret tt
  | x :: r => body x ;; for_each r body
  end.

(** The text a computation writes when started in world [w]. *)
Definition emitted_from {A} (m : IO A) (w : World) : str :=
  skipn (List.length (stdout w)) (stdout (snd (m w))).

Section Console.

(** The code points the encoding of standard output has, and
    [query.lower()]. *)
Variable encodes : codepoint -> bool.
Variable lower : str -> str.

(** [sys.stdout.write(s)] *)
Definition write (s : str) : IO unit :=
  fun w =>
    if forallb encodes s
    then (Returned tt,
          mkWorld (stdin w) (stdout w ++ s) (environ w) (heap w))
    else (Raised UnicodeEncodeError, w).

(** [print(s)] writes the text, then the line end; [print()] only the line
    end. *)
Definition print (s : str) : IO unit := write s ;; write nl.
Definition print_ : IO unit := write nl.

(** [input(prompt)]: the prompt is written, then one line is read; at end
    of input [EOFError] is raised. *)
Definition input (prompt : str) : IO str :=
  write prompt ;;
  (fun w =>
     match stdin w with
     | [] => (Raised EOFError, w)
     | line :: rest =>
         (Returned line, mkWorld rest (stdout w) (environ w) (heap w))
     end).

Definition print_header (text : str) : IO unit :=
  print (nl ++ BOLD ++ BLUE ++ rule60 ++ RESET) ;;
  print (BOLD ++ BLUE ++ center60 text ++ RESET) ;;
  print (BOLD ++ BLUE ++ rule60 ++ RESET ++ nl).

Definition print_step (step_num : nat) (text : str) : IO unit :=
  print (YELLOW ++ u "[Step " ++ str_of_nat step_num ++ u "]" ++ RESET
         ++ u " " ++ text).

Definition print_code (code : str) : IO unit :=
  print (CYAN ++ u ">>> " ++ code ++ RESET).

Definition print_result (text : str) : IO unit :=
  print (GREEN ++ text ++ RESET).


Definition pizza_response : IO unit :=
  print_result (u "🍕 Based on your query, I recommend:") ;;
  print_result (u "") ;;
  print_result (u "   Joe's Pizza ⭐ 4.5") ;;
  print_result (u "   📍 New York, NY | 💰 $$") ;;
  print_result (u "   Classic NYC slice joint since 1975.") ;;
  print_result (u "   Famous for thin crust pizza.").

Definition japanese_response : IO unit :=
  print_result (u "🍣 For a special Japanese dining experience:") ;;
  print_result (u "") ;;
  print_result (u "   Sushi Nakazawa ⭐ 4.8") ;;
  print_result (u "   📍 New York, NY | 💰 $$$$") ;;
  print_result (u "   Omakase experience from Jiro Dreams") ;;
  print_result (u "   of Sushi apprentice.").

Definition fallback_response : IO unit :=
  print_result (u "🍔 For a quick casual lunch:") ;;
  print_result (u "") ;;
  print_result (u "   Shake Shack ⭐ 4.3") ;;
  print_result (u "   📍 New York, NY | 💰 $$") ;;
  print_result (u "   Modern roadside burger stand with") ;;
  print_result (u "   quality ingredients.").

(** *** The simulated response (the [if]/[elif]/[else] of the query loop) *)

Definition simulated_response (query : str) : IO unit :=
  if contains (u "pizza") (lower query) then pizza_response
  else if contains (u "japanese") (lower query) then japanese_response
  else fallback_response.

(** *** [main], section by section *)

Definition main_intro : IO unit :=
  print_header (u "🍕 Restaurant RAG System Demo") ;;
  print (u "
This demo showcases a RAG (Retrieval-Augmented Generation) system
that helps users find restaurants using natural language queries.

Key Features:
  • Multi-source data scraping (Yelp, Google, generic)
  • FAISS vector store for semantic search
  • LangGraph agent for multi-step reasoning
  • Natural language query understanding
    ") ;;
  input (nl ++ BOLD ++ u "Press Enter to start the demo..." ++ RESET) ;;
  ret tt.

(** Step 1: Show the architecture *)
Definition main_architecture : IO unit :=
  print_header (u "Architecture Overview") ;;
  print (u "
    ┌─────────────────┐     ┌─────────────────┐
    │   User Query    │────▶│  Query Parser   │
    │ " ++ dq ++ u "Pizza in NYC" ++ dq ++ u "  │     │  (LLM-based)    │
    └─────────────────┘     └────────┬────────┘
                                     │
                                     ▼
    ┌─────────────────┐     ┌─────────────────┐
    │  Vector Store   │◀────│   RAG Engine    │
    │    (FAISS)      │────▶│  (LangChain)    │
    └─────────────────┘     └────────┬────────┘
                                     │
                                     ▼
    ┌─────────────────┐     ┌─────────────────┐
    │  LangGraph      │────▶│    Response     │
    │    Agent        │     │   Generator     │
    └─────────────────┘     └─────────────────┘
    ") ;;
  input (nl ++ BOLD ++ u "Press Enter to see code examples..." ++ RESET) ;;
  ret tt.

(** Step 2: Show initialization *)
Definition main_initialize : IO unit :=
  print_header (u "Step 1: Initialize the System") ;;
  print_step 1 (u "Import and create the RAG engine") ;;
  print_code (u "from rag_engine import RestaurantRAGEngine") ;;
  print_code (u "engine = RestaurantRAGEngine()") ;;
  print_ ;;
  print_result (u "✓ RAG engine initialized with:") ;;
  print_result (u "  - OpenAI GPT-4o-mini for generation") ;;
  print_result (u "  - text-embedding-3-small for embeddings") ;;
  print_result (u "  - FAISS vector store") ;;
  input (nl ++ BOLD ++ u "Press Enter to add sample data..." ++ RESET) ;;
  ret tt.

(** Step 3: Add sample restaurants.  The part before the list exists and
    the part that runs once [sample_restaurants] is bound. *)
Definition main_add_data_head : IO unit :=
  print_header (u "Step 2: Add Restaurant Data") ;;
  print_step 2 (u "Add sample restaurant data").

Definition main_add_data_tail (sample_restaurants : nat) : IO unit :=
  print_code (u "engine.add_restaurants(sample_restaurants)") ;;
  print_ ;;
  rs <- read_list sample_restaurants ;;
  for_each rs (fun r =>
    print_result (u "  ✓ Added: " ++ name r ++ u " (" ++ cuisine r ++ u ") - "
                  ++ repr_float (rating r) ++ u "⭐")) ;;
  input (nl ++ BOLD ++ u "Press Enter to run queries..." ++ RESET) ;;
  ret tt.

(** Step 4: Demo queries *)
Definition main_queries : IO unit :=
  print_header (u "Step 3: Natural Language Queries") ;;
  for_each (enumerate queries 1) (fun '(i, query) =>
    print_step i (u "Query: " ++ dq ++ query ++ dq) ;;
    print_code (u "result = engine.query('" ++ query ++ u "')") ;;
    print_ ;;
    simulated_response query ;;
    print_ ;;
    if (i <? List.length queries)%nat then
      input (BOLD ++ u "Press Enter for next query..." ++ RESET) ;; ret tt
    else ret tt).

(** Step 5: Show agent reasoning *)
Definition main_agent : IO unit :=
  print_header (u "Step 4: Agent Reasoning (LangGraph)") ;;
  print (u "
The LangGraph agent breaks down complex queries:

Query: " ++ dq ++ u "Find me a romantic Italian restaurant for anniversary dinner" ++ dq ++ u "

Agent Reasoning:
  1. 🔍 SEARCH: Looking for Italian restaurants
  2. 🎯 FILTER: Applying " ++ dq ++ u "romantic" ++ dq ++ u " atmosphere filter  
  3. 💰 FILTER: Checking for special occasion pricing
  4. ⭐ RANK: Sorting by rating and reviews
  5. 📝 GENERATE: Creating personalized recommendation
    ") ;;
  input (nl ++ BOLD ++ u "Press Enter for API demo..." ++ RESET) ;;
  ret tt.

(** Step 6: API endpoints *)
Definition main_api : IO unit :=
  print_header (u "Step 5: REST API") ;;
  print (u "The system exposes a FastAPI REST API:" ++ nl) ;;
  print_code (u "# Start server") ;;
  print_code (u "uvicorn api:app --reload") ;;
  print_ ;;
  print (u "Endpoints:") ;;
  print (u "  " ++ GREEN ++ u "POST /query" ++ RESET
         ++ u "         - Natural language search") ;;
  print (u "  " ++ GREEN ++ u "POST /restaurants" ++ RESET
         ++ u "   - Add restaurant data") ;;
  print (u "  " ++ GREEN ++ u "GET  /restaurants" ++ RESET
         ++ u "   - List all restaurants") ;;
  print (u "  " ++ GREEN ++ u "GET  /health" ++ RESET
         ++ u "        - Health check") ;;
  print_ ;;
  print_code (u "curl -X POST http://localhost:8000/query " ++ [92]) ;;
  print_code (u "  -H 'Content-Type: application/json' " ++ [92]) ;;
  print_code (u "  -d '{" ++ dq ++ u "query" ++ dq ++ u ": " ++ dq
              ++ u "Best tacos in Austin" ++ dq ++ u "}'").

(** Wrap up *)
Definition main_wrap_up : IO unit :=
  print_header (u "Demo Complete! 🎉") ;;
  print (u "
Key Takeaways:

1. 🏗️  ARCHITECTURE
   - Modular design with clear separation of concerns
   - LangChain for LLM orchestration
   - LangGraph for complex agent workflows

2. 🔧  PRODUCTION FEATURES
   - Multiple data source support
   - Error handling and fallbacks
   - REST API with Swagger docs

3. 📈  SCALABILITY
   - FAISS for fast vector similarity
   - Async support for high concurrency
   - Easy to swap components (e.g., Pinecone instead of FAISS)

Questions?
    ").

(** Everything that runs after [sample_restaurants] is bound. *)
Definition main_after_data (sample_restaurants : nat) : IO unit :=
  main_add_data_tail sample_restaurants ;;
  main_queries ;;
  main_agent ;;
  main_api ;;
  main_wrap_up.

Definition main : IO unit :=
  main_intro ;;
  main_architecture ;;
  main_initialize ;;
  main_add_data_head ;;
  sample_restaurants <- new_list sample_restaurants_literal ;;
  main_after_data sample_restaurants.

(** *** The query loop, for any list of queries *)

(** The body of the [for] loop of step 4, with [len(queries)] as [n]. *)
Definition query_body (n : nat) : nat * str -> IO unit :=
  fun '(i, query) =>
    print_step i (u "Query: " ++ dq ++ query ++ dq) ;;
    print_code (u "result = engine.query('" ++ query ++ u "')") ;;
    print_ ;;
    simulated_response query ;;
    print_ ;;
    if (i <? n)%nat then
      input (BOLD ++ u "Press Enter for next query..." ++ RESET) ;; ret tt
    else ret tt.

Definition query_loop (qs : list str) : IO unit :=
  for_each (enumerate qs 1) (query_body (List.length qs)).

End Console.

End Real.

Section Demo.

Variable lower_full : lower_table.

(** Lower-casing goes code point by code point, in order; an ASCII code
    point gives one code point, any other gives what the table says. *)
Definition lower_ucs4 (s : str) (i : nat) (c : codepoint) : list codepoint :=
  if is_ascii c then [ascii_lower c] else lower_full s i c.

Fixpoint do_lower (s : str) (i : nat) (rest : str) : str :=
  match rest with
  | [] => []
  | c :: r => lower_ucs4 s i c ++ do_lower s (S i) r
  end.

(** [s.lower()] *)
Definition lower (s : str) : str := do_lower s 0 s.

(** *** The simulated response (the [if]/[elif]/[else] of the query loop) *)

Definition simulated_response (query : str) : IO unit :=
  if contains (u "pizza") (lower query) then pizza_response
  else if contains (u "japanese") (lower query) then japanese_response
  else fallback_response.

(** *** [main], section by section *)

Definition main_intro : IO unit :=
  print_header (u "🍕 Restaurant RAG System Demo") ;;
  print (u "
This demo showcases a RAG (Retrieval-Augmented Generation) system
that helps users find restaurants using natural language queries.

Key Features:
  • Multi-source data scraping (Yelp, Google, generic)
  • FAISS vector store for semantic search
  • LangGraph agent for multi-step reasoning
  • Natural language query understanding
    ") ;;
  input (nl ++ BOLD ++ u "Press Enter to start the demo..." ++ RESET) ;;
  ret tt.

(** Step 1: Show the architecture *)
Definition main_architecture : IO unit :=
  print_header (u "Architecture Overview") ;;
  print (u "
    ┌─────────────────┐     ┌─────────────────┐
    │   User Query    │────▶│  Query Parser   │
    │ " ++ dq ++ u "Pizza in NYC" ++ dq ++ u "  │     │  (LLM-based)    │
    └─────────────────┘     └────────┬────────┘
                                     │
                                     ▼
    ┌─────────────────┐     ┌─────────────────┐
    │  Vector Store   │◀────│   RAG Engine    │
    │    (FAISS)      │────▶│  (LangChain)    │
    └─────────────────┘     └────────┬────────┘
                                     │
                                     ▼
    ┌─────────────────┐     ┌─────────────────┐
    │  LangGraph      │────▶│    Response     │
    │    Agent        │     │   Generator     │
    └─────────────────┘     └─────────────────┘
    ") ;;
  input (nl ++ BOLD ++ u "Press Enter to see code examples..." ++ RESET) ;;
  ret tt.

(** Step 2: Show initialization *)
Definition main_initialize : IO unit :=
  print_header (u "Step 1: Initialize the System") ;;
  print_step 1 (u "Import and create the RAG engine") ;;
  print_code (u "from rag_engine import RestaurantRAGEngine") ;;
  print_code (u "engine = RestaurantRAGEngine()") ;;
  print_ ;;
  print_result (u "✓ RAG engine initialized with:") ;;
  print_result (u "  - OpenAI GPT-4o-mini for generation") ;;
  print_result (u "  - text-embedding-3-small for embeddings") ;;
  print_result (u "  - FAISS vector store") ;;
  input (nl ++ BOLD ++ u "Press Enter to add sample data..." ++ RESET) ;;
  ret tt.

(** Step 3: Add sample restaurants.  The part before the list exists and
    the part that runs once [sample_restaurants] is bound. *)
Definition main_add_data_head : IO unit :=
  print_header (u "Step 2: Add Restaurant Data") ;;
  print_step 2 (u "Add sample restaurant data").

Definition main_add_data_tail (sample_restaurants : nat) : IO unit :=
  print_code (u "engine.add_restaurants(sample_restaurants)") ;;
  print_ ;;
  rs <- read_list sample_restaurants ;;
  for_each rs (fun r =>
    print_result (u "  ✓ Added: " ++ name r ++ u " (" ++ cuisine r ++ u ") - "
                  ++ repr_float (rating r) ++ u "⭐")) ;;
  input (nl ++ BOLD ++ u "Press Enter to run queries..." ++ RESET) ;;
  ret tt.

(** Step 4: Demo queries *)
Definition main_queries : IO unit :=
  print_header (u "Step 3: Natural Language Queries") ;;
  for_each (enumerate queries 1) (fun '(i, query) =>
    print_step i (u "Query: " ++ dq ++ query ++ dq) ;;
    print_code (u "result = engine.query('" ++ query ++ u "')") ;;
    print_ ;;
    simulated_response query ;;
    print_ ;;
    if (i <? List.length queries)%nat then
      input (BOLD ++ u "Press Enter for next query..." ++ RESET) ;; ret tt
    else ret tt).

(** Step 5: Show agent reasoning *)
Definition main_agent : IO unit :=
  print_header (u "Step 4: Agent Reasoning (LangGraph)") ;;
  print (u "
The LangGraph agent breaks down complex queries:

Query: " ++ dq ++ u "Find me a romantic Italian restaurant for anniversary dinner" ++ dq ++ u "

Agent Reasoning:
  1. 🔍 SEARCH: Looking for Italian restaurants
  2. 🎯 FILTER: Applying " ++ dq ++ u "romantic" ++ dq ++ u " atmosphere filter  
  3. 💰 FILTER: Checking for special occasion pricing
  4. ⭐ RANK: Sorting by rating and reviews
  5. 📝 GENERATE: Creating personalized recommendation
    ") ;;
  input (nl ++ BOLD ++ u "Press Enter for API demo..." ++ RESET) ;;
  ret tt.

(** Step 6: API endpoints *)
Definition main_api : IO unit :=
  print_header (u "Step 5: REST API") ;;
  print (u "The system exposes a FastAPI REST API:" ++ nl) ;;
  print_code (u "# Start server") ;;
  print_code (u "uvicorn api:app --reload") ;;
  print_ ;;
  print (u "Endpoints:") ;;
  print (u "  " ++ GREEN ++ u "POST /query" ++ RESET
         ++ u "         - Natural language search") ;;
  print (u "  " ++ GREEN ++ u "POST /restaurants" ++ RESET
         ++ u "   - Add restaurant data") ;;
  print (u "  " ++ GREEN ++ u "GET  /restaurants" ++ RESET
         ++ u "   - List all restaurants") ;;
  print (u "  " ++ GREEN ++ u "GET  /health" ++ RESET
         ++ u "        - Health check") ;;
  print_ ;;
  print_code (u "curl -X POST http://localhost:8000/query " ++ [92]) ;;
  print_code (u "  -H 'Content-Type: application/json' " ++ [92]) ;;
  print_code (u "  -d '{" ++ dq ++ u "query" ++ dq ++ u ": " ++ dq
              ++ u "Best tacos in Austin" ++ dq ++ u "}'").

(** Wrap up *)
Definition main_wrap_up : IO unit :=
  print_header (u "Demo Complete! 🎉") ;;
  print (u "
Key Takeaways:

1. 🏗️  ARCHITECTURE
   - Modular design with clear separation of concerns
   - LangChain for LLM orchestration
   - LangGraph for complex agent workflows

2. 🔧  PRODUCTION FEATURES
   - Multiple data source support
   - Error handling and fallbacks
   - REST API with Swagger docs

3. 📈  SCALABILITY
   - FAISS for fast vector similarity
   - Async support for high concurrency
   - Easy to swap components (e.g., Pinecone instead of FAISS)

Questions?
    ").

(** Everything that runs after [sample_restaurants] is bound. *)
Definition main_after_data (sample_restaurants : nat) : IO unit :=
  main_add_data_tail sample_restaurants ;;
  main_queries ;;
  main_agent ;;
  main_api ;;
  main_wrap_up.

Definition main : IO unit :=
  main_intro ;;
  main_architecture ;;
  main_initialize ;;
  main_add_data_head ;;
  sample_restaurants <- new_list sample_restaurants_literal ;;
  main_after_data sample_restaurants.

(** *** Keywords and lower-cased strings *)

(** A keyword made of ASCII code points, none of them [k], in which every
    [i] is followed by another ASCII code point. *)
Definition plain_head (x : codepoint) (r : str) : bool :=
  is_ascii x && negb (x =? 0x6B) &&
  (negb (x =? 0x69) || match r with [] => false | y :: _ => is_ascii y end).

Fixpoint plain (w : str) : bool :=
  match w with
  | [] => true
  | x :: r => plain_head x r && plain r
  end.

(** No ASCII capital occurs in the string. *)
Definition lowered (t : str) : bool :=
  forallb (fun c => negb (is_ascii_upper c)) t.

(** ** Observing a run *)

(** The text a computation writes when started in world [w]. *)
Definition emitted_from {A} (m : IO A) (w : World) : str :=
  skipn (List.length (stdout w)) (stdout (snd (m w))).

(** What [print_result] writes for a sequence of lines. *)
Definition result_lines (ls : list str) : str :=
  List.concat (map (fun l => GREEN ++ l ++ RESET ++ nl) ls).

(** The text displays the name of the record. *)
Definition shows (text : str) (r : RestaurantRecord) : bool :=
  contains (name r) text.

(** The record selected for a query: the one the simulated response
    displays. *)
Definition selected (w : World) (query : str) : list RestaurantRecord :=
  filter (shows (emitted_from (simulated_response query) w))
    sample_restaurants_literal.

(** A console with nothing typed and nothing written, and the text a
    computation writes there. *)
Definition blank : World := mkWorld [] [] [] [].
Definition text_of (m : IO unit) : str := stdout (snd (m blank)).

(** The same world with another process environment. *)
Definition with_environ (e : list (str * str)) (w : World) : World :=
  mkWorld (stdin w) (stdout w) e (heap w).

(** The same world with other list objects. *)
Definition with_heap (h : list (list RestaurantRecord)) (w : World) : World :=
  mkWorld (stdin w) (stdout w) (environ w) h.

(** *** The query loop, for any list of queries *)

(** The body of the [for] loop of step 4, with [len(queries)] as [n]. *)
Definition query_body (n : nat) : nat * str -> IO unit :=
  fun '(i, query) =>
    print_step i (u "Query: " ++ dq ++ query ++ dq) ;;
    print_code (u "result = engine.query('" ++ query ++ u "')") ;;
    print_ ;;
    simulated_response query ;;
    print_ ;;
    if (i <? n)%nat then
      input (BOLD ++ u "Press Enter for next query..." ++ RESET) ;; ret tt
    else ret tt.

Definition query_loop (qs : list str) : IO unit :=
  for_each (enumerate qs 1) (query_body (List.length qs)).

(** What [main] prints when [n] lines can be read, starting from an empty
    console. *)
Definition transcript (n : nat) : str :=
  stdout (snd (main (mkWorld (repeat [] n) [] [] []))).

(** *** The two consoles compared *)

(** An outcome on the accepting console, as an outcome on a console with an
    encoding. *)
Definition inject {A} (o : outcome A) : Real.outcome A :=
  match o with
  | Returned a => Real.Returned a
  | Raised EOFError => Real.Raised Real.EOFError
  end.

(** [p], on a console with an encoding, does what [m] does on the accepting
    console whenever the list objects satisfy [P], and [m] leaves the list
    objects alone. *)
Definition agrees {A} (P : list (list RestaurantRecord) -> Prop)
    (p : Real.IO A) (m : IO A) : Prop :=
  forall w, P (heap w) ->
    p w = (inject (fst (m w)), snd (m w)) /\ heap (snd (m w)) = heap w.

(** The console has every code point of the text of a complete run. *)
Definition console_ok (encodes : codepoint -> bool) : Prop :=
  forall c, In c (transcript 7) -> encodes c = true.

(** The code points of that text, each once. *)
Fixpoint dedup (l : list codepoint) : list codepoint :=
  match l with
  | [] => []
  | c :: r => if existsb (N.eqb c) r then dedup r else c :: dedup r
  end.

Definition script_alphabet : list codepoint :=
  Eval vm_compute in dedup (transcript 7).


(** ** Computations that only write *)

Lemma writes_print s : writes (print s) (s ++ nl).
Proof. intros w. reflexivity. Qed.

Lemma writes_print_result l : writes (print_result l) (result_lines [l]).
Proof.
  intros w. unfold print_result, print, write, result_lines.
  cbn [map List.concat]. rewrite app_nil_r, <- !app_assoc. reflexivity.
Qed.

Lemma writes_seq m1 m2 t1 t2 :
  writes m1 t1 -> writes m2 t2 -> writes (m1 ;; m2) (t1 ++ t2).
Proof.
  intros H1 H2 w. unfold bind. rewrite H1, H2. cbn.
  rewrite app_assoc. reflexivity.
Qed.

Lemma writes_emitted m t w : writes m t -> emitted_from m w = t.
Proof.
  intros H. unfold emitted_from. rewrite H. cbn.
  rewrite skipn_app, skipn_all, Nat.sub_diag. reflexivity.
Qed.

Lemma writes_text_of m t : writes m t -> writes m (text_of m).
Proof.
  intros H. unfold text_of. rewrite H. cbn. exact H.
Qed.

Ltac writes_steps :=
  repeat first [ eapply writes_seq | apply writes_print_result
               | apply writes_print ].

Lemma pizza_response_writes : writes pizza_response (text_of pizza_response).
Proof. eapply writes_text_of. unfold pizza_response. writes_steps. Qed.

Lemma japanese_response_writes :
  writes japanese_response (text_of japanese_response).
Proof. eapply writes_text_of. unfold japanese_response. writes_steps. Qed.

Lemma fallback_response_writes :
  writes fallback_response (text_of fallback_response).
Proof. eapply writes_text_of. unfold fallback_response. writes_steps. Qed.

(** The branch taken, by the two containment tests. *)
Lemma simulated_response_cases q :
  (contains (u "pizza") (lower q) = true /\
   simulated_response q = pizza_response) \/
  (contains (u "pizza") (lower q) = false /\
   contains (u "japanese") (lower q) = true /\
   simulated_response q = japanese_response) \/
  (contains (u "pizza") (lower q) = false /\
   contains (u "japanese") (lower q) = false /\
   simulated_response q = fallback_response).
Proof.
  unfold simulated_response.
  destruct (contains (u "pizza") (lower q)); [now left|].
  destruct (contains (u "japanese") (lower q)); [right; left | right; right];
    repeat split; reflexivity.
Qed.

Lemma simulated_response_writes q :
  writes (simulated_response q) (text_of (simulated_response q)).
Proof.
  destruct (simulated_response_cases q) as [[_ E]|[(_ & _ & E)|(_ & _ & E)]];
    rewrite E.
  - apply pizza_response_writes.
  - apply japanese_response_writes.
  - apply fallback_response_writes.
Qed.

Lemma selected_text w q :
  selected w q =
  filter (shows (text_of (simulated_response q))) sample_restaurants_literal.
Proof.
  unfold selected.
  rewrite (writes_emitted _ _ w (simulated_response_writes q)). reflexivity.
Qed.

Lemma shows_pizza :
  filter (shows (text_of pizza_response)) sample_restaurants_literal
  = [joes_pizza].
Proof. vm_compute. reflexivity. Qed.

Lemma shows_japanese :
  filter (shows (text_of japanese_response)) sample_restaurants_literal
  = [sushi_nakazawa].
Proof. vm_compute. reflexivity. Qed.

Lemma shows_fallback :
  filter (shows (text_of fallback_response)) sample_restaurants_literal
  = [shake_shack].
Proof. vm_compute. reflexivity. Qed.

(** ** Write-only computations, lines read, list objects, environment *)

Lemma wo_print s : writes_only (print s).
Proof. eexists. apply writes_print. Qed.

Lemma wo_ret : writes_only (ret tt).
Proof.
  exists []. intros w. unfold ret. rewrite app_nil_r. destruct w; reflexivity.
Qed.

Lemma wo_seq m1 m2 : writes_only m1 -> writes_only m2 -> writes_only (m1 ;; m2).
Proof. intros [t1 H1] [t2 H2]. eexists. eapply writes_seq; eassumption. Qed.

Lemma wo_for_each {A} (xs : list A) body :
  (forall x, writes_only (body x)) -> writes_only (for_each xs body).
Proof.
  intros Hb. induction xs as [|x xs IH]; cbn [for_each].
  - apply wo_ret.
  - apply wo_seq; [apply Hb | exact IH].
Qed.

Ltac wo :=
  repeat first [ apply wo_print | apply wo_ret | apply wo_seq ].

Lemma wo_print_ : writes_only print_.
Proof. apply wo_print. Qed.

Lemma wo_print_header text : writes_only (print_header text).
Proof. unfold print_header. wo. Qed.

Lemma wo_print_step n text : writes_only (print_step n text).
Proof. apply wo_print. Qed.

Lemma wo_print_code code : writes_only (print_code code).
Proof. apply wo_print. Qed.

Lemma wo_print_result text : writes_only (print_result text).
Proof. apply wo_print. Qed.

Lemma wo_simulated_response q : writes_only (simulated_response q).
Proof. eexists. apply simulated_response_writes. Qed.









Lemma heap_preserving_ret {A} (a : A) : heap_preserving (ret a).
Proof. intros w. reflexivity. Qed.

Lemma wo_heap_preserving m : writes_only m -> heap_preserving m.
Proof. intros [t H] w. rewrite H. reflexivity. Qed.

Lemma heap_preserving_input p : heap_preserving (input p).
Proof. intros w. unfold input. destruct (stdin w); reflexivity. Qed.

Lemma heap_preserving_read_list a : heap_preserving (read_list a).
Proof. intros w. reflexivity. Qed.

Lemma heap_preserving_bind {A B} (m : IO A) (f : A -> IO B) :
  heap_preserving m -> (forall a, heap_preserving (f a)) ->
  heap_preserving (bind m f).
Proof.
  intros Hm Hf w. specialize (Hm w). unfold bind.
  destruct (m w) as [[a|e] w']; cbn [snd] in *; [|exact Hm].
  rewrite Hf. exact Hm.
Qed.

Lemma wo_env_blind m : writes_only m -> env_blind m.
Proof. intros [t H] w e. rewrite !H. reflexivity. Qed.

Ltac wo_step :=
  lazymatch goal with
  | |- writes_only (bind _ _) => apply wo_seq
  | |- writes_only (print _) => apply wo_print
  | |- writes_only print_ => apply wo_print_
  | |- writes_only (ret tt) => apply wo_ret
  | |- writes_only (print_header _) => apply wo_print_header
  | |- writes_only (print_step _ _) => apply wo_print_step
  | |- writes_only (print_code _) => apply wo_print_code
  | |- writes_only (print_result _) => apply wo_print_result
  | |- writes_only (simulated_response _) => apply wo_simulated_response
  | |- writes_only (for_each _ _) => apply wo_for_each; intros ?
  end.

Ltac wo_main := solve [repeat wo_step].


Ltac heap_step :=
  lazymatch goal with
  | |- heap_preserving (ret _) => apply heap_preserving_ret
  | |- heap_preserving (input _) => apply heap_preserving_input
  | |- heap_preserving (read_list _) => apply heap_preserving_read_list
  | |- heap_preserving (bind _ _) =>
      first [ apply wo_heap_preserving; wo_main
            | apply heap_preserving_bind; [|intros ?] ]
  | |- heap_preserving _ => apply wo_heap_preserving; wo_main
  end.

Ltac heap_steps := repeat heap_step.

Ltac unfold_main :=
  unfold main, main_after_data, main_intro, main_architecture,
    main_initialize, main_add_data_head, main_add_data_tail, main_queries,
    main_agent, main_api, main_wrap_up;
  cbn [for_each enumerate queries List.length Nat.ltb Nat.leb].


Lemma main_after_data_heap a : heap_preserving (main_after_data a).
Proof. unfold_main. heap_steps. Qed.

(** ** Lower-casing twice *)

Lemma is_ascii_upper_lower c : is_ascii_upper (ascii_lower c) = false.
Proof.
  unfold ascii_lower. destruct (is_ascii_upper c) eqn:E; [|exact E].
  unfold is_ascii_upper in *. apply andb_true_iff in E as [E1 E2].
  apply N.leb_le in E1, E2. apply andb_false_iff. right.
  apply N.leb_gt. lia.
Qed.

Lemma upper_is_ascii c : is_ascii c = false -> is_ascii_upper c = false.
Proof.
  unfold is_ascii, is_ascii_upper. intros H. apply N.ltb_ge in H.
  apply andb_false_iff. right. apply N.leb_gt. lia.
Qed.

Lemma ascii_lower_id c : is_ascii_upper c = false -> ascii_lower c = c.
Proof. unfold ascii_lower. intros ->. reflexivity. Qed.

Lemma startswith_head_ascii x w d rest :
  is_ascii x = true -> is_ascii d = false ->
  startswith (x :: w) (d :: rest) = false.
Proof.
  unfold is_ascii. intros Hx Hd. apply N.ltb_lt in Hx. apply N.ltb_ge in Hd.
  cbn [startswith]. replace (x =? d) with false; [reflexivity|].
  symmetry. apply N.eqb_neq. lia.
Qed.

Lemma contains_cons w c s :
  contains w (c :: s) = startswith w (c :: s) || contains w s.
Proof. reflexivity. Qed.

Lemma plain_cons x w :
  plain (x :: w) = true ->
  is_ascii x = true /\ x <> 0x6B /\
  (x = 0x69 -> exists y w', w = y :: w' /\ is_ascii y = true) /\
  plain w = true.
Proof.
  cbn [plain]. unfold plain_head. intros H.
  apply andb_true_iff in H as [H Hw].
  apply andb_true_iff in H as [H Hi].
  apply andb_true_iff in H as [Ha Hk].
  repeat split; try assumption.
  - apply negb_true_iff, N.eqb_neq in Hk. exact Hk.
  - intros ->. destruct w as [|y w']; [discriminate|].
    exists y, w'. split; [reflexivity|exact Hi].
Qed.

Section Table.

Hypothesis table_ok : unicode_table lower_full.

(** A keyword never starts inside the lower case of a non-ASCII code
    point. *)
Lemma block_startswith w s i c rest :
  plain w = true -> w <> [] -> is_ascii c = false ->
  startswith w (lower_full s i c ++ rest) = false.
Proof.
  intros Hp Hne Hc. destruct w as [|x w]; [congruence|].
  apply plain_cons in Hp as (Hx & Hk & Hi & _).
  assert (Hc' : 128 <= c) by (apply N.ltb_ge; exact Hc).
  destruct (table_ok s i c Hc') as [E|[E|[Hn Hall]]].
  - rewrite E. cbn [app startswith].
    destruct (N.eqb_spec x 0x69) as [->|]; [|reflexivity].
    destruct (Hi eq_refl) as (y & w' & -> & Hy).
    rewrite (startswith_head_ascii y w' 0x307 rest Hy eq_refl). reflexivity.
  - rewrite E. cbn [app startswith].
    destruct (N.eqb_spec x 0x6B); [contradiction|reflexivity].
  - destruct (lower_full s i c) as [|d B]; [congruence|].
    cbn [forallb] in Hall. apply andb_true_iff in Hall as [Hd _].
    apply negb_true_iff in Hd. cbn [app].
    apply startswith_head_ascii; assumption.
Qed.

Lemma nonascii_contains w B rest :
  plain w = true -> w <> [] ->
  forallb (fun d => negb (is_ascii d)) B = true ->
  contains w (B ++ rest) = contains w rest.
Proof.
  intros Hp Hne. destruct w as [|x w]; [congruence|].
  apply plain_cons in Hp as (Hx & _).
  induction B as [|d B IH]; intros Hall; [reflexivity|].
  cbn [forallb] in Hall. apply andb_true_iff in Hall as [Hd HB].
  apply negb_true_iff in Hd.
  cbn [app]. rewrite contains_cons.
  rewrite (startswith_head_ascii x w d (B ++ rest) Hx Hd). cbn [orb].
  apply IH. exact HB.
Qed.

Lemma block_contains w s i c rest :
  plain w = true -> w <> [] -> is_ascii c = false ->
  contains w (lower_full s i c ++ rest) = contains w rest.
Proof.
  intros Hp Hne Hc.
  pose proof (block_startswith w s i c rest Hp Hne Hc) as Hs.
  assert (Hc' : 128 <= c) by (apply N.ltb_ge; exact Hc).
  destruct (table_ok s i c Hc') as [E|[E|[Hn Hall]]].
  - rewrite E in *. cbn [app] in *.
    rewrite !contains_cons, Hs. destruct w as [|x w]; [congruence|].
    apply plain_cons in Hp as (Hx & _).
    rewrite (startswith_head_ascii x w 0x307 rest Hx eq_refl). reflexivity.
  - rewrite E in *. cbn [app] in *.
    rewrite contains_cons, Hs. reflexivity.
  - apply nonascii_contains; assumption.
Qed.

Lemma do_lower_lowered s i q : lowered (do_lower s i q) = true.
Proof.
  revert i. induction q as [|c q IH]; intros i; [reflexivity|].
  cbn [do_lower]. unfold lowered in *. rewrite forallb_app, IH, andb_true_r.
  unfold lower_ucs4. destruct (is_ascii c) eqn:Hc.
  - cbn [forallb]. rewrite is_ascii_upper_lower. reflexivity.
  - assert (Hc' : 128 <= c) by (apply N.ltb_ge; exact Hc).
    destruct (table_ok s i c Hc') as [E|[E|[Hn Hall]]];
      try (rewrite E; reflexivity).
    apply forallb_forall. intros d Hd.
    rewrite forallb_forall in Hall. specialize (Hall d Hd).
    apply negb_true_iff in Hall. rewrite (upper_is_ascii d Hall). reflexivity.
Qed.

(** Lower-casing a string without ASCII capitals moves no keyword. *)
Lemma do_lower_startswith s t :
  lowered t = true ->
  forall w i, plain w = true ->
  startswith w (do_lower s i t) = startswith w t.
Proof.
  induction t as [|c t IH]; intros Ht w i Hp; [reflexivity|].
  unfold lowered in Ht. cbn [forallb] in Ht.
  apply andb_true_iff in Ht as [Hc Ht]. apply negb_true_iff in Hc.
  destruct w as [|x w]; [reflexivity|].
  cbn [do_lower]. unfold lower_ucs4. destruct (is_ascii c) eqn:Ha.
  - rewrite (ascii_lower_id c Hc). cbn [app startswith].
    apply plain_cons in Hp as (_ & _ & _ & Hw).
    rewrite (IH Ht w (S i) Hw). reflexivity.
  - rewrite block_startswith by (assumption || discriminate).
    apply plain_cons in Hp as (Hx & _).
    symmetry. apply startswith_head_ascii; assumption.
Qed.

Lemma do_lower_contains s t w :
  lowered t = true -> plain w = true -> w <> [] ->
  forall i, contains w (do_lower s i t) = contains w t.
Proof.
  intros Ht Hp Hne. induction t as [|c t IH]; intros i; [reflexivity|].
  pose proof (do_lower_startswith s (c :: t) Ht w i Hp) as Hs.
  unfold lowered in Ht. cbn [forallb] in Ht.
  apply andb_true_iff in Ht as [Hc Ht]. apply negb_true_iff in Hc.
  cbn [do_lower] in *. unfold lower_ucs4 in *. destruct (is_ascii c) eqn:Ha.
  - rewrite (ascii_lower_id c Hc) in *. cbn [app] in *.
    rewrite !contains_cons, Hs, (IH Ht). reflexivity.
  - rewrite block_contains by assumption.
    rewrite contains_cons, (IH Ht). destruct w as [|x w]; [congruence|].
    apply plain_cons in Hp as (Hx & _).
    rewrite (startswith_head_ascii x w c t Hx Ha). reflexivity.
Qed.

Lemma lower_lower_contains w q :
  plain w = true -> w <> [] ->
  contains w (lower (lower q)) = contains w (lower q).
Proof.
  intros Hp Hne. unfold lower at 1.
  apply do_lower_contains; try assumption.
  apply do_lower_lowered.
Qed.

End Table.

(** ** The selection, branch by branch *)

Lemma selected_spec w q :
  selected w q =
  if contains (u "pizza") (lower q) then [joes_pizza]
  else if contains (u "japanese") (lower q) then [sushi_nakazawa]
  else [shake_shack].
Proof.
  rewrite selected_text.
  destruct (simulated_response_cases q)
    as [[-> E]|[(-> & -> & E)|(-> & -> & E)]]; rewrite E.
  - apply shows_pizza.
  - apply shows_japanese.
  - apply shows_fallback.
Qed.

(** The queries of the script, and the empty query. *)
Lemma queries_selected w :
  map (selected w) queries = [[joes_pizza]; [sushi_nakazawa]; [shake_shack]]
  /\ selected w (u "") = [shake_shack].
Proof.
  unfold queries. cbn [map]. rewrite !selected_spec.
  split; vm_compute; reflexivity.
Qed.

(** C1: whenever the lower-cased query contains "pizza", the response
    printed is the one for Joe's Pizza and that record is the one selected;
    nothing is assumed about the rest of the query, so a query that also
    contains "japanese" is covered. *)
Theorem C1_pizza_selects_joes_pizza (w : World) (q : str) :
  contains (u "pizza") (lower q) = true ->
  selected w q = [joes_pizza] /\ simulated_response q = pizza_response.
Proof.
  intros H. split.
  - rewrite selected_spec, H. reflexivity.
  - unfold simulated_response. rewrite H. reflexivity.
Qed.

(** C2: whenever the lower-cased query does not contain "pizza" but contains
    "japanese", the Sushi Nakazawa record is selected. *)
Theorem C2_japanese_selects_sushi_nakazawa (w : World) (q : str) :
  contains (u "pizza") (lower q) = false ->
  contains (u "japanese") (lower q) = true ->
  selected w q = [sushi_nakazawa] /\ simulated_response q = japanese_response.
Proof.
  intros H1 H2. split.
  - rewrite selected_spec, H1, H2. reflexivity.
  - unfold simulated_response. rewrite H1, H2. reflexivity.
Qed.

(** C3: the selection is total.  For every query and every world the
    simulated response returns normally (no exception), exactly one record
    of the sample data is selected, it is Shake Shack when neither keyword
    occurs, and the empty query selects Shake Shack. *)
Theorem C3_selection_total (w : World) (q : str) :
  fst (simulated_response q w) = Returned tt /\
  (exists r, In r sample_restaurants_literal /\ selected w q = [r]) /\
  selected w q =
    (if contains (u "pizza") (lower q) then [joes_pizza]
     else if contains (u "japanese") (lower q) then [sushi_nakazawa]
     else [shake_shack]) /\
  selected w [] = [shake_shack].
Proof.
  split; [rewrite simulated_response_writes; reflexivity|].
  split; [|split].
  - rewrite selected_spec.
    destruct (contains (u "pizza") (lower q));
      [|destruct (contains (u "japanese") (lower q))].
    + exists joes_pizza. split; [left|]; reflexivity.
    + exists sushi_nakazawa. split; [right; left|]; reflexivity.
    + exists shake_shack. split; [right; right; left|]; reflexivity.
  - apply selected_spec.
  - rewrite selected_spec. reflexivity.
Qed.

(** C4: selection is case-insensitive.  With the interpreter's lower-casing
    table, the lower-cased form of a query selects what the query selects;
    "PIZZA", "Pizza" and "pIzZa" select the same record as "pizza". *)
Theorem C4_case_insensitive (w : World) (q : str) :
  unicode_table lower_full ->
  selected w q = selected w (lower q) /\
  simulated_response q = simulated_response (lower q) /\
  selected w (u "PIZZA") = selected w (u "pizza") /\
  selected w (u "Pizza") = selected w (u "pizza") /\
  selected w (u "pIzZa") = selected w (u "pizza").
Proof.
  intros Ht.
  assert (Hp : contains (u "pizza") (lower (lower q))
               = contains (u "pizza") (lower q))
    by (apply lower_lower_contains; [exact Ht | reflexivity | discriminate]).
  assert (Hj : contains (u "japanese") (lower (lower q))
               = contains (u "japanese") (lower q))
    by (apply lower_lower_contains; [exact Ht | reflexivity | discriminate]).
  split; [|split].
  - rewrite !selected_spec, Hp, Hj. reflexivity.
  - unfold simulated_response. rewrite Hp, Hj. reflexivity.
  - rewrite !selected_spec. repeat split; vm_compute; reflexivity.
Qed.

(** C5: in each of the three branches the text printed is a greeting, an
    empty line and the card of the corresponding record of the sample data:
    its name with a star and the rating to one decimal place (4.5, 4.8,
    4.3), its location and price tier, and its description, unchanged once
    the display lines are joined again. *)
Theorem C5_responses_render_records :
  (exists greeting wrapped,
     unwrap wrapped = description joes_pizza /\
     forall w, emitted_from pizza_response w =
       result_lines
         (greeting :: [] :: map indent (spec_render joes_pizza wrapped))) /\
  (exists greeting wrapped,
     unwrap wrapped = description sushi_nakazawa /\
     forall w, emitted_from japanese_response w =
       result_lines
         (greeting :: [] :: map indent (spec_render sushi_nakazawa wrapped))) /\
  (exists greeting wrapped,
     unwrap wrapped = description shake_shack /\
     forall w, emitted_from fallback_response w =
       result_lines
         (greeting :: [] :: map indent (spec_render shake_shack wrapped))) /\
  spec_one_decimal (rating joes_pizza) = u "4.5" /\
  spec_one_decimal (rating sushi_nakazawa) = u "4.8" /\
  spec_one_decimal (rating shake_shack) = u "4.3".
Proof.
  split; [|split; [|split]].
  - exists (u "🍕 Based on your query, I recommend:"),
      [u "Classic NYC slice joint since 1975."; u "Famous for thin crust pizza."].
    split; [vm_compute; reflexivity|]. intros w.
    rewrite (writes_emitted _ _ w pizza_response_writes).
    vm_compute. reflexivity.
  - exists (u "🍣 For a special Japanese dining experience:"),
      [u "Omakase experience from Jiro Dreams"; u "of Sushi apprentice."].
    split; [vm_compute; reflexivity|]. intros w.
    rewrite (writes_emitted _ _ w japanese_response_writes).
    vm_compute. reflexivity.
  - exists (u "🍔 For a quick casual lunch:"),
      [u "Modern roadside burger stand with"; u "quality ingredients."].
    split; [vm_compute; reflexivity|]. intros w.
    rewrite (writes_emitted _ _ w fallback_response_writes).
    vm_compute. reflexivity.
  - repeat split; vm_compute; reflexivity.
Qed.

(** ** The list object behind [sample_restaurants] *)

Lemma allocates_bind {A B} (m : IO A) (f : A -> IO B) v :
  heap_preserving m -> (forall a, allocates_at_most (f a) v) ->
  allocates_at_most (bind m f) v.
Proof.
  intros Hm Hf w. specialize (Hm w). unfold bind.
  destruct (m w) as [[a|e] w']; cbn [snd] in *.
  - rewrite <- Hm. apply Hf.
  - left. exact Hm.
Qed.

Lemma allocates_new_list {B} (f : nat -> IO B) v :
  (forall a, heap_preserving (f a)) ->
  allocates_at_most (bind (new_list v) f) v.
Proof.
  intros Hf w. right. unfold bind, new_list. rewrite Hf. reflexivity.
Qed.

Lemma main_allocates : allocates_at_most main sample_restaurants_literal.
Proof.
  unfold main.
  do 4 (apply allocates_bind; [unfold_main; heap_steps | intros _]).
  apply allocates_new_list. apply main_after_data_heap.
Qed.

(** An assignment to the list object would not go unnoticed. *)
Lemma assign_list_not_preserving :
  ~ heap_preserving (assign_list 0 []).
Proof.
  intros H.
  specialize (H (mkWorld [] [] [] [sample_restaurants_literal])).
  discriminate H.
Qed.

(** C6: the sample data are three well-formed records with distinct,
    non-empty names, ratings within [0.0, 5.0] and prices among the tier
    tokens; the run allocates the list once and nothing that runs after the
    list is bound changes a list object. *)
Theorem C6_catalog_fixed :
  List.length sample_restaurants_literal = 3%nat /\
  forallb well_formed sample_restaurants_literal = true /\
  distinct (map name sample_restaurants_literal) = true /\
  (forall w,
     heap (snd (main w)) = heap w \/
     heap (snd (main w)) = heap w ++ [sample_restaurants_literal]) /\
  (forall sample_restaurants w,
     heap (snd (main_after_data sample_restaurants w)) = heap w).
Proof.
  split; [reflexivity|].
  split; [vm_compute; reflexivity|].
  split; [vm_compute; reflexivity|].
  split.
  - apply main_allocates.
  - intros a. apply main_after_data_heap.
Qed.

(** ** Determinism, environment, keywords *)

(** C8: the simulated response is deterministic and stateless.  From any
    two worlds it returns the same outcome, writes the same text and selects
    the same record; it changes nothing but standard output, so a second
    evaluation right after the first selects the same record again. *)
Theorem C8_selection_deterministic (q : str) (w1 w2 : World) :
  fst (simulated_response q w1) = fst (simulated_response q w2) /\
  emitted_from (simulated_response q) w1
  = emitted_from (simulated_response q) w2 /\
  selected w1 q = selected w2 q /\
  stdin (snd (simulated_response q w1)) = stdin w1 /\
  environ (snd (simulated_response q w1)) = environ w1 /\
  heap (snd (simulated_response q w1)) = heap w1 /\
  selected (snd (simulated_response q w1)) q = selected w1 q.
Proof.
  pose proof (simulated_response_writes q) as H.
  rewrite !(writes_emitted _ _ _ H), !selected_text, !H.
  repeat split; reflexivity.
Qed.

(** Reading the environment is what [env_blind] rules out. *)
Lemma os_environ_get_not_blind :
  ~ env_blind (os_environ_get (u "OPENAI_API_KEY")).
Proof.
  intros H.
  specialize (H blank [(u "OPENAI_API_KEY", u "sk-test")]).
  vm_compute in H. discriminate H.
Qed.

(** C9: the selection does not depend on the process environment.  For any
    two environments the simulated response returns the same outcome, writes
    the same text and selects the same record, and it hands the environment
    on unchanged: it never reads it. *)
Theorem C9_selection_ignores_environment
    (q : str) (w : World) (e1 e2 : list (str * str)) :
  selected (with_environ e1 w) q = selected (with_environ e2 w) q /\
  fst (simulated_response q (with_environ e1 w))
  = fst (simulated_response q (with_environ e2 w)) /\
  emitted_from (simulated_response q) (with_environ e1 w)
  = emitted_from (simulated_response q) (with_environ e2 w) /\
  environ (snd (simulated_response q (with_environ e1 w))) = e1.
Proof.
  pose proof (simulated_response_writes q) as H.
  rewrite !(writes_emitted _ _ _ H), !selected_text, !H.
  repeat split; reflexivity.
Qed.

(** C10: only the two keywords influence the selection.  The response is a
    function of the two containment tests alone, the list objects in memory
    are not consulted, and queries made of a record's own terms ("sushi",
    "burger", "italian", the name of Sushi Nakazawa, the cuisine of Shake
    Shack) select the fallback Shake Shack record. *)
Theorem C10_only_keywords_matter :
  (exists f : bool -> bool -> IO unit,
     forall q,
       simulated_response q
       = f (contains (u "pizza") (lower q))
           (contains (u "japanese") (lower q))) /\
  (forall w h q, selected (with_heap h w) q = selected w q) /\
  (forall w,
     selected w (u "sushi") = [shake_shack] /\
     selected w (u "burger") = [shake_shack] /\
     selected w (u "italian") = [shake_shack] /\
     selected w (name sushi_nakazawa) = [shake_shack] /\
     selected w (cuisine shake_shack) = [shake_shack]).
Proof.
  split; [|split].
  - exists (fun p j : bool =>
              if p then pizza_response
              else if j then japanese_response else fallback_response).
    intros q. reflexivity.
  - intros w h q. rewrite !selected_text. reflexivity.
  - intros w. rewrite !selected_spec. repeat split; vm_compute; reflexivity.
Qed.

(** ** The banner of [print_header] *)

(** X1: a centred title is the title itself between two runs of spaces; the
    right run is as long as the left one or one longer, and the whole is 60
    code points wide, or as wide as the title when that is wider. *)
Theorem center60_shape (text : str) :
  exists l r : nat,
    center60 text = repeat 32 l ++ text ++ repeat 32 r /\
    (l <= r <= l + 1)%nat /\
    (l + List.length text + r = Nat.max 60 (List.length text))%nat.
Proof.
  unfold center60.
  set (pad := (60 - List.length text)%nat).
  exists (Nat.div pad 2), (pad - Nat.div pad 2)%nat.
  pose proof (Nat.div_mod_eq pad 2) as Hd.
  pose proof (Nat.mod_upper_bound pad 2 ltac:(discriminate)) as Hm.
  split; [reflexivity|]. unfold pad in *. lia.
Qed.

(** X2: a title of 60 code points or more is printed as it is, neither
    padded nor cut. *)
Theorem center60_long_title (text : str) :
  (60 <= List.length text)%nat -> center60 text = text.
Proof.
  intros H. unfold center60.
  replace (60 - List.length text)%nat with 0%nat by lia.
  cbn [Nat.div Nat.divmod fst repeat Nat.sub app]. apply app_nil_r.
Qed.

(** ** The keyword tests *)

Lemma startswith_iff w s :
  startswith w s = true <-> exists b, s = w ++ b.
Proof.
  revert s. induction w as [|x w IH]; intros s.
  - split; [intros _; exists s; reflexivity | reflexivity].
  - destruct s as [|c s]; cbn [startswith].
    + split; [discriminate | intros [b Hb]; discriminate].
    + rewrite andb_true_iff, N.eqb_eq, IH. split.
      * intros [-> [b ->]]. exists b. reflexivity.
      * intros [b Hb]. injection Hb as -> ->. split; [reflexivity|].
        exists b. reflexivity.
Qed.

(** X3: the test [w in s] succeeds exactly when [s] is some text, then
    [w], then some text. *)
Theorem contains_iff (w s : str) :
  contains w s = true <-> exists a b, s = a ++ w ++ b.
Proof.
  induction s as [|c s IH].
  - cbn [contains]. rewrite orb_false_r, startswith_iff. split.
    + intros [b Hb]. exists [], b. exact Hb.
    + intros (a & b & H). destruct a as [|x a]; [|discriminate].
      exists b. exact H.
  - rewrite contains_cons, orb_true_iff, startswith_iff, IH. split.
    + intros [[b Hb]|(a & b & Hb)].
      * exists [], b. exact Hb.
      * exists (c :: a), b. rewrite Hb. reflexivity.
    + intros (a & b & H). destruct a as [|x a].
      * left. exists b. exact H.
      * right. injection H as -> ->. exists a, b. reflexivity.
Qed.

Lemma ascii_of_lower c : is_ascii (ascii_lower c) = true -> is_ascii c = true.
Proof.
  unfold ascii_lower. destruct (is_ascii_upper c) eqn:E; [|trivial].
  intros _. unfold is_ascii, is_ascii_upper in *.
  apply andb_true_iff in E as [_ E]. apply N.leb_le in E.
  apply N.ltb_lt. lia.
Qed.

Lemma do_lower_app s i x y :
  do_lower s i (x ++ y) = do_lower s i x ++ do_lower s (i + List.length x) y.
Proof.
  revert i. induction x as [|c x IH]; intros i; cbn [app do_lower List.length].
  - rewrite Nat.add_0_r. reflexivity.
  - rewrite IH, <- app_assoc, Nat.add_succ_r. reflexivity.
Qed.

Lemma do_lower_ascii s i k :
  forallb is_ascii (map ascii_lower k) = true ->
  do_lower s i k = map ascii_lower k.
Proof.
  revert i. induction k as [|c k IH]; intros i H; [reflexivity|].
  cbn [map forallb] in H. apply andb_true_iff in H as [Hc Hk].
  cbn [do_lower map]. unfold lower_ucs4.
  rewrite (ascii_of_lower c Hc), (IH _ Hk). reflexivity.
Qed.

(** A keyword spelled in any mix of ASCII cases, anywhere in the query, is
    found in the lower-cased query. *)
Lemma keyword_found kw a k b :
  forallb is_ascii kw = true -> map ascii_lower k = kw ->
  contains kw (lower (a ++ k ++ b)) = true.
Proof.
  intros Hkw Hk. apply contains_iff. unfold lower.
  rewrite !do_lower_app, (do_lower_ascii _ _ k) by (rewrite Hk; exact Hkw).
  rewrite Hk. eauto.
Qed.

(** X4: a query that spells "pizza" in any mix of upper and lower case
    ASCII letters, with anything before and after it, selects Joe's Pizza,
    whatever the lower-casing table does to the rest. *)
Theorem pizza_any_case (w : World) (a k b : str) :
  map ascii_lower k = u "pizza" ->
  selected w (a ++ k ++ b) = [joes_pizza].
Proof.
  intros Hk. rewrite selected_spec.
  rewrite (keyword_found (u "pizza") a k b eq_refl Hk). reflexivity.
Qed.

(** X5: a query that spells "japanese" in any mix of upper and lower case
    ASCII letters selects Sushi Nakazawa, unless its lower-cased form
    contains "pizza". *)
Theorem japanese_any_case (w : World) (a k b : str) :
  map ascii_lower k = u "japanese" ->
  contains (u "pizza") (lower (a ++ k ++ b)) = false ->
  selected w (a ++ k ++ b) = [sushi_nakazawa].
Proof.
  intros Hk Hp. rewrite selected_spec, Hp.
  rewrite (keyword_found (u "japanese") a k b eq_refl Hk). reflexivity.
Qed.

Section Folding.

Hypothesis table_ok : unicode_table lower_full.

Lemma do_lower_fold_startswith q :
  forall w s i, plain w = true ->
  startswith w (do_lower s i q) = startswith w (map ascii_lower q).
Proof.
  induction q as [|c q IH]; intros w s i Hp; [reflexivity|].
  destruct w as [|x w]; [reflexivity|].
  cbn [do_lower map]. unfold lower_ucs4. destruct (is_ascii c) eqn:Ha.
  - cbn [app startswith].
    apply plain_cons in Hp as (_ & _ & _ & Hw).
    rewrite (IH w s (S i) Hw). reflexivity.
  - rewrite (block_startswith table_ok) by (assumption || discriminate).
    rewrite (ascii_lower_id c (upper_is_ascii c Ha)).
    apply plain_cons in Hp as (Hx & _).
    symmetry. apply startswith_head_ascii; assumption.
Qed.

Lemma do_lower_fold_contains w q :
  plain w = true -> w <> [] ->
  forall s i, contains w (do_lower s i q) = contains w (map ascii_lower q).
Proof.
  intros Hp Hne. induction q as [|c q IH]; intros s i; [reflexivity|].
  pose proof (do_lower_fold_startswith (c :: q) w s i Hp) as Hs.
  cbn [do_lower map] in *. unfold lower_ucs4 in *.
  destruct (is_ascii c) eqn:Ha.
  - cbn [app] in *. rewrite !contains_cons, Hs, (IH s (S i)). reflexivity.
  - rewrite (block_contains table_ok) by assumption.
    rewrite contains_cons, (IH s (S i)).
    rewrite (ascii_lower_id c (upper_is_ascii c Ha)).
    destruct w as [|x w]; [congruence|].
    apply plain_cons in Hp as (Hx & _).
    rewrite (startswith_head_ascii x w c _ Hx Ha). reflexivity.
Qed.

(** X6: with the interpreter's lower-casing table, each keyword test gives
    what it gives on the query with only its ASCII capitals lowered: code
    points outside ASCII never take part in a match, whatever their lower
    case is. *)
Theorem keyword_tests_ascii_only (q : str) :
  contains (u "pizza") (lower q)
  = contains (u "pizza") (map ascii_lower q) /\
  contains (u "japanese") (lower q)
  = contains (u "japanese") (map ascii_lower q).
Proof.
  split; apply do_lower_fold_contains; (reflexivity || discriminate).
Qed.

End Folding.

(** ** Scripts *)

Lemma glue_length s1 t1 s2 :
  List.length (glue_segs s1 t1 s2) = (List.length s1 + List.length s2)%nat.
Proof.
  destruct s2 as [|x r]; cbn [glue_segs List.length].
  - lia.
  - rewrite length_app. reflexivity.
Qed.

Lemma played_glue s1 t1 s2 t2 n :
  (List.length s1 <= n)%nat ->
  played s1 t1 n ++ played s2 t2 (n - List.length s1)
  = played (glue_segs s1 t1 s2) (glue_tail t1 s2 t2) n.
Proof.
  intros H. unfold played. rewrite glue_length.
  rewrite (proj2 (Nat.leb_le _ _) H).
  destruct s2 as [|x r]; cbn [glue_segs glue_tail List.length].
  - rewrite Nat.add_0_r, (proj2 (Nat.leb_le _ _) H).
    cbn [Nat.leb List.concat app]. rewrite app_assoc. reflexivity.
  - destruct (Nat.leb_spec (S (List.length r)) (n - List.length s1)) as [L|L].
    + rewrite (proj2 (Nat.leb_le (List.length s1 + S (List.length r)) n))
        by lia.
      rewrite concat_app. cbn [List.concat]. rewrite <- !app_assoc.
      reflexivity.
    + rewrite (proj2 (Nat.leb_gt (List.length s1 + S (List.length r)) n))
        by lia.
      rewrite firstn_app, (firstn_all2 s1) by lia.
      replace (S n - List.length s1)%nat with (S (n - List.length s1)) by lia.
      cbn [firstn]. rewrite concat_app. cbn [List.concat].
      rewrite <- !app_assoc. reflexivity.
Qed.

Lemma played_short s1 t1 s2 t2 n :
  (n < List.length s1)%nat ->
  played (glue_segs s1 t1 s2) (glue_tail t1 s2 t2) n = played s1 t1 n.
Proof.
  intros H. unfold played. rewrite glue_length.
  rewrite (proj2 (Nat.leb_gt (List.length s1 + List.length s2) n)) by lia.
  rewrite (proj2 (Nat.leb_gt (List.length s1) n)) by lia.
  destruct s2 as [|x r]; cbn [glue_segs]; [reflexivity|].
  rewrite firstn_app.
  replace (S n - List.length s1)%nat with 0%nat by lia.
  cbn [firstn]. rewrite app_nil_r. reflexivity.
Qed.

Lemma outcome_glue s1 t1 s2 n :
  (List.length s1 <= n)%nat ->
  script_outcome s2 (n - List.length s1)
  = script_outcome (glue_segs s1 t1 s2) n.
Proof.
  intros H. unfold script_outcome. rewrite glue_length.
  destruct (Nat.leb_spec (List.length s2) (n - List.length s1)) as [L|L].
  - rewrite (proj2 (Nat.leb_le _ _)) by lia. reflexivity.
  - rewrite (proj2 (Nat.leb_gt _ _)) by lia. reflexivity.
Qed.

Lemma outcome_short s1 t1 s2 n :
  (n < List.length s1)%nat ->
  script_outcome (glue_segs s1 t1 s2) n = script_outcome s1 n.
Proof.
  intros H. unfold script_outcome. rewrite glue_length.
  rewrite !(proj2 (Nat.leb_gt _ _)) by lia. reflexivity.
Qed.

Lemma skipn_glue {A} s1 t1 s2 (l : list A) :
  skipn (List.length s2) (skipn (List.length s1) l)
  = skipn (List.length (glue_segs s1 t1 s2)) l.
Proof. rewrite glue_length, skipn_skipn. f_equal. lia. Qed.

Lemma script_writes P m t : writes m t -> runs_script P m [] t.
Proof. intros H w _. rewrite H. reflexivity. Qed.

Lemma script_ret P : runs_script P (ret tt) [] [].
Proof.
  intros w _. unfold ret, played. cbn. rewrite app_nil_r.
  destruct w; reflexivity.
Qed.

Lemma script_pause P p : runs_script P (input p ;; ret tt) [p] [].
Proof.
  intros w _. unfold bind, input, ret, played, script_outcome.
  destruct w as [[|l r] out env h]; cbn; rewrite ?app_nil_r; reflexivity.
Qed.

Lemma script_read_list a v (f : list RestaurantRecord -> IO unit) s t :
  runs_script (fun h => nth a h [] = v) (f v) s t ->
  runs_script (fun h => nth a h [] = v) (bind (read_list a) f) s t.
Proof.
  intros H w HP. unfold bind, read_list. cbn beta iota. rewrite HP.
  apply H. exact HP.
Qed.

Lemma script_seq P m1 m2 s1 t1 s2 t2 :
  runs_script P m1 s1 t1 -> runs_script P m2 s2 t2 ->
  runs_script P (m1 ;; m2) (glue_segs s1 t1 s2) (glue_tail t1 s2 t2).
Proof.
  intros H1 H2 w HP. unfold bind. rewrite (H1 w HP).
  unfold script_outcome at 1.
  destruct (Nat.leb_spec (List.length s1) (List.length (stdin w))) as [L|L].
  - rewrite H2 by exact HP. cbn [stdin stdout environ heap].
    rewrite length_skipn, (skipn_glue s1 t1 s2), (outcome_glue s1 t1 s2 _ L).
    rewrite <- app_assoc, (played_glue s1 t1 s2 t2 _ L). reflexivity.
  - rewrite (outcome_short s1 t1 s2 _ L), (played_short s1 t1 s2 t2 _ L).
    unfold script_outcome. rewrite (proj2 (Nat.leb_gt _ _) L).
    rewrite glue_length, !skipn_all2 by lia. reflexivity.
Qed.

(** A script, then the list display, then a script that reads the list. *)
Lemma script_then_list m1 s1 t1 (f : nat -> IO unit) v s2 t2 :
  runs_script (fun _ => True) m1 s1 t1 ->
  (forall a, runs_script (fun h => nth a h [] = v) (f a) s2 t2) ->
  forall w,
    (m1 ;; (a <- new_list v ;; f a)) w
    = (script_outcome (glue_segs s1 t1 s2) (List.length (stdin w)),
       mkWorld (skipn (List.length (glue_segs s1 t1 s2)) (stdin w))
         (stdout w
          ++ played (glue_segs s1 t1 s2) (glue_tail t1 s2 t2)
               (List.length (stdin w)))
         (environ w)
         (if (List.length s1 <=? List.length (stdin w))%nat
          then heap w ++ [v] else heap w)).
Proof.
  intros H1 H2 w. unfold bind. rewrite (H1 w I).
  unfold script_outcome at 1.
  destruct (Nat.leb_spec (List.length s1) (List.length (stdin w))) as [L|L].
  - unfold new_list. cbn [stdin stdout environ heap].
    rewrite H2 by (cbn [heap]; apply nth_middle).
    cbn [stdin stdout environ heap].
    rewrite length_skipn, (skipn_glue s1 t1 s2), (outcome_glue s1 t1 s2 _ L).
    rewrite <- app_assoc, (played_glue s1 t1 s2 t2 _ L). reflexivity.
  - rewrite (outcome_short s1 t1 s2 _ L), (played_short s1 t1 s2 t2 _ L).
    unfold script_outcome. rewrite (proj2 (Nat.leb_gt _ _) L).
    rewrite glue_length, !skipn_all2 by lia. reflexivity.
Qed.

(** ** The script of [main] *)

Lemma print_header_writes text :
  writes (print_header text) (text_of (print_header text)).
Proof. eapply writes_text_of. unfold print_header. writes_steps. Qed.

Ltac writes_step :=
  lazymatch goal with
  | |- writes (bind _ _) _ => eapply writes_seq
  | |- writes (print_header _) _ => apply print_header_writes
  | |- writes (simulated_response _) _ => apply simulated_response_writes
  | |- writes _ _ => apply writes_print
  end.

Ltac script_step :=
  lazymatch goal with
  | |- runs_script _ (bind (input _) _) _ _ => apply script_pause
  | |- runs_script _ (bind (read_list _) _) _ _ =>
      apply script_read_list; cbn beta;
      cbn [for_each sample_restaurants_literal]
  | |- runs_script _ (bind _ _) _ _ => eapply script_seq
  | |- runs_script _ (ret tt) _ _ => apply script_ret
  | |- runs_script _ _ _ _ => apply script_writes; repeat writes_step
  end.

Lemma main_before_data_script :
  exists segs tail,
    List.length segs = 3%nat /\
    runs_script (fun _ => True)
      (main_intro ;; main_architecture ;; main_initialize ;;
       main_add_data_head) segs tail.
Proof.
  eexists _, _. split; cycle 1.
  - unfold main_intro, main_architecture, main_initialize,
      main_add_data_head.
    repeat script_step.
  - rewrite !glue_length. reflexivity.
Qed.

Lemma main_after_data_script :
  exists segs tail,
    List.length segs = 4%nat /\
    forall a,
      runs_script (fun h => nth a h [] = sample_restaurants_literal)
        (main_after_data a) segs tail.
Proof.
  eexists _, _. split; cycle 1.
  - intros a. unfold_main. repeat script_step.
  - rewrite !glue_length. reflexivity.
Qed.

Lemma main_split w :
  main w =
  ((main_intro ;; main_architecture ;; main_initialize ;;
    main_add_data_head) ;;
   (a <- new_list sample_restaurants_literal ;; main_after_data a)) w.
Proof.
  unfold main, bind.
  destruct (main_intro w) as [[[]|e] w1]; [|reflexivity].
  destruct (main_architecture w1) as [[[]|e] w2]; [|reflexivity].
  destruct (main_initialize w2) as [[[]|e] w3]; [|reflexivity].
  destruct (main_add_data_head w3) as [[[]|e] w4]; reflexivity.
Qed.

(** The whole run as one script of seven pauses; the list object appears
    once the first three pauses have passed. *)
Lemma main_script :
  exists segs tail,
    List.length segs = 7%nat /\
    forall w,
      main w
      = (script_outcome segs (List.length (stdin w)),
         mkWorld (skipn 7 (stdin w))
           (stdout w ++ played segs tail (List.length (stdin w)))
           (environ w)
           (if (3 <=? List.length (stdin w))%nat
            then heap w ++ [sample_restaurants_literal] else heap w)).
Proof.
  destruct main_before_data_script as (s1 & t1 & L1 & H1).
  destruct main_after_data_script as (s2 & t2 & L2 & H2).
  exists (glue_segs s1 t1 s2), (glue_tail t1 s2 t2).
  assert (L : List.length (glue_segs s1 t1 s2) = 7%nat)
    by (rewrite glue_length, L1, L2; reflexivity).
  split; [exact L|]. intros w.
  rewrite main_split, (script_then_list _ s1 t1 _ _ s2 t2 H1 H2 w), L, L1.
  reflexivity.
Qed.


Lemma played_prefix segs tail n1 n2 :
  (n1 <= n2)%nat ->
  exists more, played segs tail n2 = played segs tail n1 ++ more.
Proof.
  intros H. unfold played.
  destruct (Nat.leb_spec (List.length segs) n1) as [L1|L1].
  - rewrite (proj2 (Nat.leb_le _ _)) by lia.
    exists []. rewrite app_nil_r. reflexivity.
  - destruct (Nat.leb_spec (List.length segs) n2) as [L2|L2].
    + exists (List.concat (skipn (S n1) segs) ++ tail).
      rewrite app_assoc, <- concat_app, firstn_skipn. reflexivity.
    + exists (List.concat (skipn (S n1) (firstn (S n2) segs))).
      rewrite <- concat_app.
      rewrite <- (firstn_skipn (S n1) (firstn (S n2) segs)) at 1.
      rewrite firstn_firstn, Nat.min_l by lia. reflexivity.
Qed.

Lemma main_emitted :
  exists segs tail,
    List.length segs = 7%nat /\
    forall w,
      emitted_from main w = played segs tail (List.length (stdin w)).
Proof.
  destruct main_script as (segs & tail & L & H).
  exists segs, tail. split; [exact L|]. intros w.
  unfold emitted_from. rewrite H. cbn [snd stdout].
  rewrite skipn_app, skipn_all, Nat.sub_diag. reflexivity.
Qed.

(** ** The query loop *)

Lemma main_queries_loop :
  main_queries
  = (print_header (u "Step 3: Natural Language Queries") ;;
     query_loop queries).
Proof. unfold main_queries, query_loop, query_body. reflexivity. Qed.



(** ** The run on a console with an encoding *)

Lemma dedup_In c l : In c (dedup l) -> In c l.
Proof.
  induction l as [|x l IH]; cbn [dedup]; [trivial|].
  destruct (existsb (N.eqb x) l); cbn [In]; intuition.
Qed.

Lemma script_alphabet_eq : script_alphabet = dedup (transcript 7).
Proof. vm_compute. reflexivity. Qed.


Lemma forallb_weaken {A} (f g : A -> bool) l :
  (forall x, f x = true -> g x = true) ->
  forallb f l = true -> forallb g l = true.
Proof.
  intros H. rewrite !forallb_forall. intros Hf x Hx. apply H, Hf, Hx.
Qed.

Lemma real_write_ok encodes s w :
  forallb encodes s = true ->
  Real.write encodes s w
  = (Real.Returned tt,
     mkWorld (stdin w) (stdout w ++ s) (environ w) (heap w)).
Proof. intros H. unfold Real.write. rewrite H. reflexivity. Qed.

Lemma real_write_refused encodes s w :
  forallb encodes s = false ->
  Real.write encodes s w = (Real.Raised Real.UnicodeEncodeError, w).
Proof. intros H. unfold Real.write. rewrite H. reflexivity. Qed.

Lemma agrees_ret {A} P (a : A) : agrees P (Real.ret a) (ret a).
Proof. intros w _. split; reflexivity. Qed.

Lemma agrees_bind {A B} P (p : Real.IO A) (m : IO A)
    (f : A -> Real.IO B) (g : A -> IO B) :
  agrees P p m -> (forall a, agrees P (f a) (g a)) ->
  agrees P (Real.bind p f) (bind m g).
Proof.
  intros Hp Hf w HP. destruct (Hp w HP) as [E Hh].
  unfold Real.bind, bind. rewrite E.
  destruct (m w) as [[a|e] w']; cbn [fst snd inject] in *.
  - assert (HP' : P (heap w')) by (rewrite Hh; exact HP).
    destruct (Hf a w' HP') as [E' Hh']. split; [exact E'|].
    rewrite Hh'. exact Hh.
  - destruct e. split; [reflexivity | exact Hh].
Qed.

Lemma agrees_read_list {B} a v (f : _ -> Real.IO B) (g : _ -> IO B) :
  agrees (fun h => nth a h [] = v) (f v) (g v) ->
  agrees (fun h => nth a h [] = v)
    (Real.bind (Real.read_list a) f) (bind (read_list a) g).
Proof.
  intros H w HP. unfold Real.bind, Real.read_list, bind, read_list.
  cbn beta iota. rewrite HP. apply H. exact HP.
Qed.

Section Console.

Variable encodes : codepoint -> bool.
Hypothesis console : console_ok encodes.

Lemma chunk_ok s :
  forallb (fun c => existsb (N.eqb c) script_alphabet) s = true ->
  forallb encodes s = true.
Proof.
  apply forallb_weaken. intros c Hc. apply console.
  apply dedup_In. rewrite <- script_alphabet_eq.
  apply existsb_exists in Hc as (x & Hx & E).
  apply N.eqb_eq in E. subst x. exact Hx.
Qed.

Ltac chunk := apply chunk_ok; vm_compute; reflexivity.

Lemma nl_ok : forallb encodes nl = true.
Proof. chunk. Qed.


Lemma agrees_print P s :
  forallb encodes s = true -> agrees P (Real.print encodes s) (print s).
Proof.
  intros H w _. unfold Real.print, Real.bind, print, write.
  rewrite (real_write_ok _ _ _ H), (real_write_ok _ _ _ nl_ok).
  cbn [stdin stdout environ heap fst snd inject].
  rewrite <- app_assoc. split; reflexivity.
Qed.

Lemma agrees_print_ P : agrees P (Real.print_ encodes) print_.
Proof.
  intros w _. unfold Real.print_, print_, print, write.
  rewrite (real_write_ok _ _ _ nl_ok). split; reflexivity.
Qed.

Lemma agrees_input P p :
  forallb encodes p = true -> agrees P (Real.input encodes p) (input p).
Proof.
  intros H w _. unfold Real.input, Real.bind, input.
  rewrite (real_write_ok _ _ _ H). cbn [stdin stdout environ heap].
  destruct (stdin w); split; reflexivity.
Qed.

Ltac agrees_step :=
  lazymatch goal with
  | |- agrees _ (Real.bind (Real.read_list _) _) (bind (read_list _) _) =>
      apply agrees_read_list; cbn beta;
      cbn [Real.for_each for_each sample_restaurants_literal]
  | |- agrees _ (Real.bind _ _) (bind _ _) =>
      apply agrees_bind; [|intros ?]
  | |- agrees _ (Real.ret _) (ret _) => apply agrees_ret
  | |- agrees _ (Real.print_ _) print_ => apply agrees_print_
  | |- agrees _ (Real.input _ _) (input _) => apply agrees_input; chunk
  | |- agrees _ (Real.print _ _) (print _) => apply agrees_print; chunk
  end.

Ltac unfold_helpers :=
  unfold Real.print_header, Real.print_step, Real.print_code,
    Real.print_result, print_header, print_step, print_code, print_result.

Lemma agrees_simulated_response P q :
  agrees P (Real.simulated_response encodes lower q) (simulated_response q).
Proof.
  unfold Real.simulated_response, simulated_response.
  destruct (contains (u "pizza") (lower q));
    [|destruct (contains (u "japanese") (lower q))].
  - unfold Real.pizza_response, pizza_response. unfold_helpers.
    repeat agrees_step.
  - unfold Real.japanese_response, japanese_response. unfold_helpers.
    repeat agrees_step.
  - unfold Real.fallback_response, fallback_response. unfold_helpers.
    repeat agrees_step.
Qed.

Ltac agrees_main :=
  repeat first
    [ lazymatch goal with
      | |- agrees _ (Real.simulated_response _ _ _) (simulated_response _) =>
          apply agrees_simulated_response
      end
    | agrees_step ].

Ltac unfold_real_main :=
  unfold Real.main_after_data, Real.main_intro, Real.main_architecture,
    Real.main_initialize, Real.main_add_data_head, Real.main_add_data_tail,
    Real.main_queries, Real.main_agent, Real.main_api, Real.main_wrap_up,
    main_after_data, main_intro, main_architecture,
    main_initialize, main_add_data_head, main_add_data_tail, main_queries,
    main_agent, main_api, main_wrap_up;
  unfold_helpers;
  cbn [Real.for_each for_each enumerate queries List.length Nat.ltb Nat.leb].

Lemma agrees_main_intro :
  agrees (fun _ => True) (Real.main_intro encodes) main_intro.
Proof. unfold_real_main. agrees_main. Qed.

Lemma agrees_main_architecture :
  agrees (fun _ => True) (Real.main_architecture encodes) main_architecture.
Proof. unfold_real_main. agrees_main. Qed.

Lemma agrees_main_initialize :
  agrees (fun _ => True) (Real.main_initialize encodes) main_initialize.
Proof. unfold_real_main. agrees_main. Qed.

Lemma agrees_main_add_data_head :
  agrees (fun _ => True) (Real.main_add_data_head encodes) main_add_data_head.
Proof. unfold_real_main. agrees_main. Qed.

Lemma agrees_main_after_data a :
  agrees (fun h => nth a h [] = sample_restaurants_literal)
    (Real.main_after_data encodes lower a) (main_after_data a).
Proof. unfold_real_main. agrees_main. Qed.

(** On such a console the run is the run on the accepting console. *)
Lemma real_main_agrees w :
  Real.main encodes lower w = (inject (fst (main w)), snd (main w)).
Proof.
  unfold Real.main, main, Real.bind, bind.
  destruct (agrees_main_intro w I) as [-> H1].
  destruct (main_intro w) as [[[]|[]] w1]; cbn [fst snd inject];
    [|reflexivity].
  destruct (agrees_main_architecture w1 I) as [-> H2].
  destruct (main_architecture w1) as [[[]|[]] w2]; cbn [fst snd inject];
    [|reflexivity].
  destruct (agrees_main_initialize w2 I) as [-> H3].
  destruct (main_initialize w2) as [[[]|[]] w3]; cbn [fst snd inject];
    [|reflexivity].
  destruct (agrees_main_add_data_head w3 I) as [-> H4].
  destruct (main_add_data_head w3) as [[[]|[]] w4]; cbn [fst snd inject];
    [|reflexivity].
  unfold Real.new_list, new_list.
  apply (agrees_main_after_data (List.length (heap w4))).
  cbn [heap]. apply nth_middle.
Qed.




(** X8: on such a console more lines on standard input only add to what is
    printed: the text printed with fewer lines is the beginning of the text
    printed with more. *)
Theorem main_output_prefix (w1 w2 : World) :
  (List.length (stdin w1) <= List.length (stdin w2))%nat ->
  exists more,
    Real.emitted_from (Real.main encodes lower) w2
    = Real.emitted_from (Real.main encodes lower) w1 ++ more.
Proof.
  intros H. destruct main_emitted as (segs & tail & _ & E).
  assert (R : forall w, Real.emitted_from (Real.main encodes lower) w
                        = emitted_from main w).
  { intros w. unfold Real.emitted_from, emitted_from.
    rewrite real_main_agrees. reflexivity. }
  rewrite !R, !E. apply played_prefix. exact H.
Qed.

(** X12: on such a console [main] leaves [os.environ] as it is, and the
    list of sample data is created exactly when the
    first three pauses find a line: then it is the one list object added,
    otherwise none is. *)
Theorem main_final_world (w : World) :
  environ (snd (Real.main encodes lower w)) = environ w /\
  heap (snd (Real.main encodes lower w))
  = (if (3 <=? List.length (stdin w))%nat
     then heap w ++ [sample_restaurants_literal] else heap w).
Proof.
  rewrite real_main_agrees. cbn [snd].
  destruct main_script as (segs & tail & _ & H).
  rewrite H. split; reflexivity.
Qed.

(** *** The query loop on such a console *)





End Console.

(** *** A console that lacks the emoji of the title *)




End Demo.

(** ** Concrete runs *)

Lemma lower_full_min_ok : unicode_table lower_full_min.
Proof.
  intros s i c Hc. unfold lower_full_min.
  destruct (c =? 0x130); [left; reflexivity|].
  destruct (c =? 0x212A); [right; left; reflexivity|].
  right; right. split; [discriminate|].
  cbn [forallb]. unfold is_ascii.
  apply N.ltb_ge in Hc. rewrite Hc. reflexivity.
Qed.

Lemma C1_witness :
  selected lower_full_min blank (u "Japanese PIZZA, please") = [joes_pizza] /\
  simulated_response lower_full_min (u "Japanese PIZZA, please")
  = pizza_response.
Proof.
  refine (C1_pizza_selects_joes_pizza lower_full_min blank
            (u "Japanese PIZZA, please") _).
  vm_compute. reflexivity.
Defined.

Lemma C2_witness :
  selected lower_full_min blank
    (u "I want fancy Japanese food for a special occasion")
  = [sushi_nakazawa] /\
  simulated_response lower_full_min
    (u "I want fancy Japanese food for a special occasion")
  = japanese_response.
Proof.
  refine (C2_japanese_selects_sushi_nakazawa lower_full_min blank
            (u "I want fancy Japanese food for a special occasion") _ _);
    vm_compute; reflexivity.
Defined.

Lemma C4_witness :
  selected lower_full_min blank [0x50; 0x130; 0x5A; 0x5A; 0x41]
  = selected lower_full_min blank
      (lower lower_full_min [0x50; 0x130; 0x5A; 0x5A; 0x41]).
Proof.
  exact (proj1 (C4_case_insensitive lower_full_min blank
                  [0x50; 0x130; 0x5A; 0x5A; 0x41] lower_full_min_ok)).
Defined.


(** ** Concrete runs of the further properties *)

Lemma center60_long_title_witness :
  center60 (repeat 120 61) = repeat 120 61.
Proof.
  refine (center60_long_title (repeat 120 61) _).
  rewrite repeat_length. lia.
Defined.

Lemma pizza_any_case_witness :
  selected lower_full_min blank (u "best " ++ u "PiZzA" ++ u " in town")
  = [joes_pizza].
Proof.
  refine (pizza_any_case lower_full_min blank
            (u "best ") (u "PiZzA") (u " in town") _).
  vm_compute. reflexivity.
Defined.

Lemma japanese_any_case_witness :
  selected lower_full_min blank (u "some " ++ u "JAPANESE" ++ u " food")
  = [sushi_nakazawa].
Proof.
  refine (japanese_any_case lower_full_min blank
            (u "some ") (u "JAPANESE") (u " food") _ _);
    vm_compute; reflexivity.
Defined.

Lemma keyword_tests_ascii_only_witness :
  contains (u "pizza") (lower lower_full_min [0x50; 0x130; 0x5A; 0x5A; 0x41])
  = contains (u "pizza") (map ascii_lower [0x50; 0x130; 0x5A; 0x5A; 0x41]) /\
  contains (u "japanese")
    (lower lower_full_min [0x50; 0x130; 0x5A; 0x5A; 0x41])
  = contains (u "japanese")
      (map ascii_lower [0x50; 0x130; 0x5A; 0x5A; 0x41]).
Proof.
  exact (keyword_tests_ascii_only lower_full_min lower_full_min_ok
           [0x50; 0x130; 0x5A; 0x5A; 0x41]).
Defined.

Lemma utf8_console_ok : console_ok lower_full_min utf8_console.
Proof.
  intros c Hc.
  assert (H : forallb utf8_console (transcript lower_full_min 7) = true)
    by (vm_compute; reflexivity).
  rewrite forallb_forall in H. apply H. exact Hc.
Qed.



Lemma main_output_prefix_witness :
  exists more,
    Real.emitted_from (Real.main utf8_console (lower lower_full_min))
      seven_lines
    = Real.emitted_from (Real.main utf8_console (lower lower_full_min))
        eof_world ++ more.
Proof.
  refine (main_output_prefix lower_full_min utf8_console utf8_console_ok
            eof_world seven_lines _).
  cbn [eof_world seven_lines stdin List.length]. lia.
Defined.

Lemma main_final_world_witness :
  environ (snd (Real.main utf8_console (lower lower_full_min) seven_lines))
  = environ seven_lines /\
  heap (snd (Real.main utf8_console (lower lower_full_min) seven_lines))
  = (if (3 <=? List.length (stdin seven_lines))%nat
     then heap seven_lines ++ [sample_restaurants_literal]
     else heap seven_lines).
Proof.
  exact (main_final_world lower_full_min utf8_console utf8_console_ok
           seven_lines).
Defined.



(** ** The typing effect *)

Lemma written_app tr1 tr2 :
  Typing.written (tr1 ++ tr2) = Typing.written tr1 ++ Typing.written tr2.
Proof.
  induction tr1 as [|[s| |d] tr1 IH]; cbn [app Typing.written];
    rewrite ?IH, ?app_assoc; reflexivity.
Qed.

Lemma sleeps_app tr1 tr2 :
  Typing.sleeps (tr1 ++ tr2) = Typing.sleeps tr1 ++ Typing.sleeps tr2.
Proof.
  induction tr1 as [|[s| |d] tr1 IH]; cbn [app Typing.sleeps];
    rewrite ?IH; reflexivity.
Qed.

Lemma typed_written text delay :
  Typing.written
    (flat_map (fun c => [Typing.Write [c]; Typing.Flush; Typing.Sleep delay])
       text) = text.
Proof.
  induction text as [|c text IH]; [reflexivity|].
  cbn [flat_map app Typing.written]. rewrite IH. reflexivity.
Qed.

Lemma typed_sleeps text delay :
  Typing.sleeps
    (flat_map (fun c => [Typing.Write [c]; Typing.Flush; Typing.Sleep delay])
       text) = repeat delay (List.length text).
Proof.
  induction text as [|c text IH]; [reflexivity|].
  cbn [flat_map app Typing.sleeps List.length repeat]. rewrite IH.
  reflexivity.
Qed.

Section TypingRuns.

Variable encodes : codepoint -> bool.
Variable fits : Q -> bool.

(** One turn of the loop: write, flush, sleep. *)
Lemma typing_turn c delay tr :
  encodes c = true -> fits delay = true -> Qle_bool 0 delay = true ->
  Typing.seq (Typing.stdout_write encodes [c])
    (Typing.seq Typing.stdout_flush (Typing.sleep fits delay)) tr
  = (Typing.Returned,
     tr ++ [Typing.Write [c]; Typing.Flush; Typing.Sleep delay]).
Proof.
  intros Hc Hf Hd.
  unfold Typing.seq, Typing.stdout_write, Typing.stdout_flush, Typing.sleep.
  cbn [forallb]. rewrite Hc, Hf, Hd. cbn [andb]. rewrite <- !app_assoc.
  reflexivity.
Qed.

Lemma typing_loop text delay tr :
  fits delay = true -> Qle_bool 0 delay = true ->
  forallb encodes text = true ->
  Typing.for_each text (fun char =>
    Typing.seq (Typing.stdout_write encodes [char])
      (Typing.seq Typing.stdout_flush (Typing.sleep fits delay))) tr
  = (Typing.Returned,
     tr ++ flat_map (fun c =>
             [Typing.Write [c]; Typing.Flush; Typing.Sleep delay]) text).
Proof.
  intros Hf Hd. revert tr.
  induction text as [|c text IH]; intros tr Ht.
  - cbn. rewrite app_nil_r. reflexivity.
  - cbn [forallb] in Ht. apply andb_true_iff in Ht as [Hc Ht].
    cbn [Typing.for_each flat_map]. unfold Typing.seq at 1.
    rewrite (typing_turn c delay tr Hc Hf Hd), (IH _ Ht), <- app_assoc.
    reflexivity.
Qed.

(** X10: with a delay that is in the clock's range and not negative, and a
    console that has the code points of the text and the line end,
    [simulate_typing] returns normally, puts the text followed by one
    newline on standard output, code point by code point, and sleeps once
    per code point, each time for the given delay. *)
Theorem simulate_typing_types_text (text : str) (delay : Q)
    (tr : list Typing.event) :
  fits delay = true -> (0 <= delay)%Q ->
  forallb encodes (text ++ nl) = true ->
  fst (Typing.simulate_typing encodes fits text delay tr) = Typing.Returned /\
  Typing.written (snd (Typing.simulate_typing encodes fits text delay tr))
  = Typing.written tr ++ text ++ nl /\
  Typing.sleeps (snd (Typing.simulate_typing encodes fits text delay tr))
  = Typing.sleeps tr ++ repeat delay (List.length text).
Proof.
  intros Hf Hd He. apply Qle_bool_iff in Hd.
  rewrite forallb_app in He. apply andb_true_iff in He as [Ht Hn].
  assert (E : Typing.simulate_typing encodes fits text delay tr
              = (Typing.Returned,
                 (tr ++ flat_map (fun c =>
                          [Typing.Write [c]; Typing.Flush; Typing.Sleep delay])
                          text) ++ [Typing.Write nl])).
  { unfold Typing.simulate_typing. unfold Typing.seq at 1.
    rewrite (typing_loop text delay tr Hf Hd Ht).
    unfold Typing.print_, Typing.stdout_write. rewrite Hn. reflexivity. }
  rewrite E. cbn [fst snd].
  rewrite !written_app, !sleeps_app, typed_written, typed_sleeps.
  cbn [Typing.written Typing.sleeps]. rewrite !app_nil_r, <- app_assoc.
  repeat split; reflexivity.
Qed.

(** X11: with a delay that is out of the clock's range, or in range and
    negative, [simulate_typing] of a text that starts with a code point the
    console has raises at the first sleep, [OverflowError] in the first
    case and [ValueError] in the second, after that code point has been
    written and flushed and before any newline. *)
Theorem simulate_typing_bad_delay (c : codepoint) (rest : str) (delay : Q)
    (tr : list Typing.event) :
  fits delay = false \/ (delay < 0)%Q ->
  encodes c = true ->
  Typing.simulate_typing encodes fits (c :: rest) delay tr
  = (Typing.Raised
       (if fits delay then Typing.ValueError else Typing.OverflowError),
     tr ++ [Typing.Write [c]; Typing.Flush]).
Proof.
  intros Hd Hc.
  unfold Typing.simulate_typing. cbn [Typing.for_each].
  unfold Typing.seq, Typing.stdout_write, Typing.stdout_flush, Typing.sleep.
  cbn [forallb]. rewrite Hc. cbn [andb].
  destruct (fits delay); [|rewrite <- app_assoc; reflexivity].
  destruct Hd as [Hd|Hd]; [discriminate|].
  destruct (Qle_bool 0 delay) eqn:E; [|rewrite <- app_assoc; reflexivity].
  apply Qle_bool_iff in E. exfalso. exact (Qlt_not_le _ _ Hd E).
Qed.


End TypingRuns.

Lemma simulate_typing_types_text_witness :
  fst (Typing.simulate_typing utf8_console clock_fits (u "Hi")
         Typing.default_delay [])
  = Typing.Returned /\
  Typing.written
    (snd (Typing.simulate_typing utf8_console clock_fits (u "Hi")
            Typing.default_delay []))
  = Typing.written [] ++ u "Hi" ++ nl /\
  Typing.sleeps
    (snd (Typing.simulate_typing utf8_console clock_fits (u "Hi")
            Typing.default_delay []))
  = Typing.sleeps [] ++ repeat Typing.default_delay (List.length (u "Hi")).
Proof.
  refine (simulate_typing_types_text utf8_console clock_fits (u "Hi")
            Typing.default_delay [] _ _ _).
  - reflexivity.
  - apply Qle_bool_iff. reflexivity.
  - reflexivity.
Defined.

Lemma simulate_typing_bad_delay_witness :
  Typing.simulate_typing utf8_console clock_fits (72 :: [105])
    (-10000000000) []
  = (Typing.Raised
       (if clock_fits (-10000000000)
        then Typing.ValueError else Typing.OverflowError),
     [] ++ [Typing.Write [72]; Typing.Flush]).
Proof.
  refine (simulate_typing_bad_delay utf8_console clock_fits 72 [105]
            (-10000000000) [] _ _).
  - left. reflexivity.
  - reflexivity.
Defined.

